(** * go-multiaddr-fmt: the pattern algebra of [patterns.go]

    A shallow embedding of the multiaddr format matcher: the [Pattern]
    interface with its two implementations ([Base] and the [pattern]
    struct built by [And] / [Or]), the matching methods [Matches] and
    [partialMatch], and the rendering method [String]. *)

From Stdlib Require Import ZArith List String Bool Arith Lia.
Import ListNotations.

Set Warnings "-register-all".

Local Open Scope string_scope.
Local Open Scope list_scope.

(** ** Results of Go calls

    A Go call either returns or panics; a panic unwinds through every
    caller in this package (nothing recovers). *)

Inductive result (A : Type) : Type :=
| Ok (a : A)
| Panic (msg : string).

Arguments Ok {A} a.
Arguments Panic {A} msg.

Definition bind {A B : Type} (c : result A) (k : A -> result B) : result B :=
  match c with
  | Ok a => k a
  | Panic msg => Panic msg
  end.

Notation "x <- c ;; k" := (bind c (fun x => k))
  (at level 61, c at next level, right associativity).

(** ** Data model *)

(** [ma.Protocol]: only the fields this package reads. *)
Record Protocol : Type := mkProtocol { Name : string; Code : Z }.

(** [ma.Multiaddr] is consumed through [a.Protocols()] only, so an address
    is represented by the ordered list of its protocol segments. *)
Definition Multiaddr : Type := list Protocol.

Definition Protocols (a : Multiaddr) : list Protocol := a.

(** [const ( or = iota; and = iota )].  The source names are [or] and
    [and]; they are prefixed here to keep the logical connectives visible. *)
Definition op_or : Z := 0.
Definition op_and : Z := 1.

(** The two implementations of the [Pattern] interface:
    [type Base int] and [type pattern struct { Args []Pattern; Op int }]. *)
Inductive Pattern : Type :=
| Base (code : Z)
| mk_pattern (Args : list Pattern) (Op : Z).

Definition And (ps : list Pattern) : Pattern := mk_pattern ps op_and.
Definition Or (ps : list Pattern) : Pattern := mk_pattern ps op_or.

(** ** Matching *)

(** [Base.partialMatch]. *)
Definition Base_partialMatch (p : Z) (pcs : list Protocol)
  : result (bool * list Protocol) :=
  match pcs with
  | [] => Ok (false, [])
  | p0 :: rest => if (Code p0 =? p)%Z then Ok (true, rest) else Ok (false, [])
  end.

Section Loops.
(** The dynamic call [a.partialMatch(pcs)] made by the two loops. *)
Variable call : Pattern -> list Protocol -> result (bool * list Protocol).

(** [case or]: the [range] loop over [ptrn.Args]. *)
Fixpoint or_loop (args : list Pattern) (pcs : list Protocol)
  : result (bool * list Protocol) :=
  match args with
  | [] => Ok (false, [])
  | a :: args' =>
      r <- call a pcs ;;
      if fst r then Ok (true, snd r) else or_loop args' pcs
  end.

(** [case and]: the indexed loop, [pcs = rem] after each success. *)
Fixpoint and_loop (args : list Pattern) (pcs : list Protocol)
  : result (bool * list Protocol) :=
  match args with
  | [] => Ok (true, pcs)
  | a :: args' =>
      r <- call a pcs ;;
      if negb (fst r) then Ok (false, []) else and_loop args' (snd r)
  end.
End Loops.

(** [Pattern.partialMatch], dispatched on the implementation. *)
Fixpoint partialMatch (ptrn : Pattern) (pcs : list Protocol) {struct ptrn}
  : result (bool * list Protocol) :=
  match ptrn with
  | Base p => Base_partialMatch p pcs
  | mk_pattern Args Op =>
      if (Op =? op_or)%Z then
        or_loop (fun a q => partialMatch a q) Args pcs
      else if (Op =? op_and)%Z then
        if (List.length pcs <? List.length Args)%nat then Ok (false, [])
        else and_loop (fun a q => partialMatch a q) Args pcs
      else Panic "unrecognized pattern operand"
  end.

(** [Base.Matches]: [pcs[0]] is read before the length is looked at. *)
Definition Base_Matches (p : Z) (a : Multiaddr) : result bool :=
  let pcs := Protocols a in
  match pcs with
  | [] => Panic "runtime error: index out of range [0] with length 0"
  | p0 :: _ => Ok ((Code p0 =? p)%Z && (List.length pcs =? 1)%nat)
  end.

(** [pattern.Matches] (pointer receiver). *)
Definition pattern_Matches (ptrn : Pattern) (a : Multiaddr) : result bool :=
  r <- partialMatch ptrn (Protocols a) ;;
  Ok (fst r && (List.length (snd r) =? 0)%nat).

(** [Pattern.Matches], dispatched on the implementation. *)
Definition Matches (ptrn : Pattern) (a : Multiaddr) : result bool :=
  match ptrn with
  | Base p => Base_Matches p a
  | mk_pattern _ _ => pattern_Matches ptrn a
  end.

(** ** The same methods with a bound on the depth of nested calls

    Go's recursion is general.  [partialMatch_fuel] is [partialMatch]
    with every method call paid for from [fuel]; [None] means the budget
    ran out before the call returned. *)

Section FuelLoops.
Variable call :
  Pattern -> list Protocol -> option (result (bool * list Protocol)).

Fixpoint or_loop_fuel (args : list Pattern) (pcs : list Protocol)
  : option (result (bool * list Protocol)) :=
  match args with
  | [] => Some (Ok (false, []))
  | a :: args' =>
      match call a pcs with
      | None => None
      | Some (Panic msg) => Some (Panic msg)
      | Some (Ok r) =>
          if fst r then Some (Ok (true, snd r)) else or_loop_fuel args' pcs
      end
  end.

Fixpoint and_loop_fuel (args : list Pattern) (pcs : list Protocol)
  : option (result (bool * list Protocol)) :=
  match args with
  | [] => Some (Ok (true, pcs))
  | a :: args' =>
      match call a pcs with
      | None => None
      | Some (Panic msg) => Some (Panic msg)
      | Some (Ok r) =>
          if negb (fst r) then Some (Ok (false, []))
          else and_loop_fuel args' (snd r)
      end
  end.
End FuelLoops.

Fixpoint partialMatch_fuel (fuel : nat) (ptrn : Pattern) (pcs : list Protocol)
  : option (result (bool * list Protocol)) :=
  match fuel with
  | O => None
  | S fuel' =>
      match ptrn with
      | Base p => Some (Base_partialMatch p pcs)
      | mk_pattern Args Op =>
          if (Op =? op_or)%Z then
            or_loop_fuel (partialMatch_fuel fuel') Args pcs
          else if (Op =? op_and)%Z then
            if (List.length pcs <? List.length Args)%nat
            then Some (Ok (false, []))
            else and_loop_fuel (partialMatch_fuel fuel') Args pcs
          else Some (Panic "unrecognized pattern operand")
      end
  end.

Definition Matches_fuel (fuel : nat) (ptrn : Pattern) (a : Multiaddr)
  : option (result bool) :=
  match fuel with
  | O => None
  | S fuel' =>
      match ptrn with
      | Base p => Some (Base_Matches p a)
      | mk_pattern _ _ =>
          match partialMatch_fuel fuel' ptrn (Protocols a) with
          | None => None
          | Some (Panic msg) => Some (Panic msg)
          | Some (Ok r) => Some (Ok (fst r && (List.length (snd r) =? 0)%nat))
          end
      end
  end.

(** Height of a pattern tree: the longest chain of nested [Args]. *)
Fixpoint depth (ptrn : Pattern) : nat :=
  match ptrn with
  | Base _ => 0
  | mk_pattern Args _ => S (list_max (map depth Args))
  end.

(** The patterns a client can build: [pattern] is unexported, so every
    [Op] comes from [And] or [Or]. *)
Fixpoint constructible (ptrn : Pattern) : bool :=
  match ptrn with
  | Base _ => true
  | mk_pattern Args Op =>
      ((Op =? op_or)%Z || (Op =? op_and)%Z) && forallb constructible Args
  end.

(** ** Rendering *)

(** [strings.Join(elems, sep)]: the first element, then separator and
    element for each of the others. *)
Definition Join (elems : list string) (sep : string) : string :=
  match elems with
  | [] => ""
  | e :: rest => fold_left (fun b s => ((b ++ sep) ++ s)%string) rest e
  end.

Section StringLoop.
Variable call : Pattern -> result string.

(** [for _, a := range ptrn.Args { sub = append(sub, a.String()) }]. *)
Fixpoint sub_loop (args : list Pattern) (sub : list string)
  : result (list string) :=
  match args with
  | [] => Ok sub
  | a :: args' => s <- call a ;; sub_loop args' (sub ++ [s])
  end.
End StringLoop.

Section Render.
(** [ma.ProtocolWithCode], the protocol registry of go-multiaddr. *)
Variable ProtocolWithCode : Z -> Protocol.

(** [Pattern.String]; the method is renamed, [String] being the
    constructor of strings. *)
Fixpoint toString (ptrn : Pattern) : result string :=
  match ptrn with
  | Base p => Ok (Name (ProtocolWithCode p))
  | mk_pattern Args Op =>
      sub <- sub_loop (fun a => toString a) Args [] ;;
      if (Op =? op_and)%Z then Ok (Join sub "/")
      else if (Op =? op_or)%Z then Ok ("{" ++ Join sub "|" ++ "}")%string
      else Panic "unrecognized pattern op!"
  end.
End Render.

(** ** Induction on pattern trees *)

Section PatternInd.
Variable P : Pattern -> Prop.
Hypothesis HBase : forall code, P (Base code).
Hypothesis Hpattern : forall Args Op, Forall P Args -> P (mk_pattern Args Op).

Fixpoint Pattern_tree_ind (ptrn : Pattern) : P ptrn :=
  match ptrn with
  | Base code => HBase code
  | mk_pattern Args Op =>
      Hpattern Args Op
        ((fix children (l : list Pattern) : Forall P l :=
            match l with
            | [] => Forall_nil P
            | a :: l' => Forall_cons a (Pattern_tree_ind a) (children l')
            end) Args)
  end.
End PatternInd.

(** ** The protocol table and the pattern library

    The codes and names are those of the protocol table of go-multiaddr,
    which this package imports; no property below depends on their values
    beyond their being pairwise distinct. *)

Definition P_IP4 : Z := 4.
Definition P_TCP : Z := 6.
Definition P_IP6 : Z := 41.
Definition P_DNS4 : Z := 54.
Definition P_DNS6 : Z := 55.
Definition P_DNSADDR : Z := 56.
Definition P_UDP : Z := 273.
Definition P_P2P_WEBRTC_DIRECT : Z := 276.
Definition P_UTP : Z := 302.
Definition P_IPFS : Z := 421.
Definition P_HTTPS : Z := 443.
Definition P_GARLIC64 : Z := 446.
Definition P_GARLIC32 : Z := 447.
Definition P_QUIC : Z := 460.
Definition P_HTTP : Z := 480.

Definition protocol_table : list (Z * string) :=
  [ (P_IP4, "ip4"); (P_TCP, "tcp"); (P_IP6, "ip6"); (P_DNS4, "dns4");
    (P_DNS6, "dns6"); (P_DNSADDR, "dnsaddr"); (P_UDP, "udp");
    (P_P2P_WEBRTC_DIRECT, "p2p-webrtc-direct"); (P_UTP, "utp");
    (P_IPFS, "p2p"); (P_HTTPS, "https"); (P_GARLIC64, "garlic64");
    (P_GARLIC32, "garlic32"); (P_QUIC, "quic"); (P_HTTP, "http") ].

(** A registry: the table entry of a code, the zero [Protocol] when the
    code is not registered. *)
Definition sample_registry (code : Z) : Protocol :=
  match find (fun e => (fst e =? code)%Z) protocol_table with
  | Some (c, name) => mkProtocol name c
  | None => mkProtocol "" 0
  end.

(** A segment with the given code. *)
Definition seg (code : Z) : Protocol := sample_registry code.

(** The package-level patterns of [patterns.go], in source order ([SAM3]
    apart, whose protocol code is not in the table above). *)
Definition DNS4 : Pattern := Base P_DNS4.
Definition DNS6 : Pattern := Base P_DNS6.
Definition DNS : Pattern := Or [Base P_DNSADDR; DNS4; DNS6].
Definition IP : Pattern := Or [Base P_IP4; Base P_IP6].
Definition TCP : Pattern := Or [And [DNS; Base P_TCP]; And [IP; Base P_TCP]].
Definition UDP : Pattern := Or [And [DNS; Base P_UDP]; And [IP; Base P_UDP]].
Definition UTP : Pattern := And [UDP; Base P_UTP].
Definition QUIC : Pattern := And [UDP; Base P_QUIC].
Definition GARLIC32 : Pattern := Base P_GARLIC32.
Definition GARLIC64 : Pattern := Base P_GARLIC64.
Definition GARLIC : Pattern := Or [GARLIC64; GARLIC32].
Definition Unreliable : Pattern := Or [UDP].
Definition Reliable : Pattern := Or [TCP; UTP; QUIC; GARLIC].
Definition IPFS : Pattern := And [Reliable; Base P_IPFS].
Definition HTTP : Pattern :=
  Or [And [TCP; Base P_HTTP]; And [IP; Base P_HTTP]; And [DNS; Base P_HTTP]].
Definition HTTPS : Pattern :=
  Or [And [TCP; Base P_HTTPS]; And [IP; Base P_HTTPS]; And [DNS; Base P_HTTPS]].
Definition WebRTCDirect : Pattern :=
  Or [And [HTTP; Base P_P2P_WEBRTC_DIRECT];
      And [HTTPS; Base P_P2P_WEBRTC_DIRECT]].

(** The segment list of a sample address. *)
Definition addr (codes : list Z) : Multiaddr := map seg codes.

(** An alternative whose first child is a prefix of its second child. *)
Definition shadow_P1 : Pattern := Base P_IP4.
Definition shadow_P2 : Pattern := And [Base P_IP4; Base P_TCP].
Definition shadow_addr : Multiaddr := addr [P_IP4; P_TCP].

(** ** Specification-side definitions *)

(** [threads ps pcs rem]: the patterns of [ps] succeed one after the other,
    each on the remainder returned by the one before it, and [rem] is the
    remainder returned by the last one. *)
Inductive threads : list Pattern -> list Protocol -> list Protocol -> Prop :=
| threads_nil : forall pcs, threads [] pcs pcs
| threads_cons : forall p ps pcs mid rem,
    partialMatch p pcs = Ok (true, mid) ->
    threads ps mid rem ->
    threads (p :: ps) pcs rem.

(** [p] fails on [pcs]: a plain [false], remainder [nil]. *)
Definition fails_on (pcs : list Protocol) (p : Pattern) : Prop :=
  partialMatch p pcs = Ok (false, []).

(** The documented rendering: the registry name of an atom, the children
    joined by a slash for a sequence, the children joined by a bar inside
    braces for an alternative. *)
Fixpoint render_spec (registry : Z -> Protocol) (ptrn : Pattern) : string :=
  match ptrn with
  | Base p => Name (registry p)
  | mk_pattern Args Op =>
      if (Op =? op_or)%Z
      then ("{" ++ String.concat "|" (map (render_spec registry) Args) ++ "}")%string
      else String.concat "/" (map (render_spec registry) Args)
  end.

(** [SAM3] of [patterns.go]; the code of [ma.P_SAM3] is a parameter. *)
Definition SAM3 (P_SAM3 : Z) : Pattern := And [Or [TCP; UDP]; Base P_SAM3].

(** The declarative reading of a pattern, as the comments of the pattern
    library give it ("either ipv4 or ipv6", "tcp on top of ..."): an atom
    is its code, an alternative is one of its children, a sequence is its
    children one after the other.  [denotes p codes]: the code list
    [codes] is an instance of [p]. *)
Inductive denotes : Pattern -> list Z -> Prop :=
| denotes_Base : forall c, denotes (Base c) [c]
| denotes_Or : forall ps p codes,
    In p ps -> denotes p codes -> denotes (Or ps) codes
| denotes_And : forall ps parts,
    Forall2 denotes ps parts -> denotes (And ps) (List.concat parts).

(** Patterns built from [Base], [Or] and [And] of at least one child. *)
Fixpoint productive (ptrn : Pattern) : bool :=
  match ptrn with
  | Base _ => true
  | mk_pattern Args Op =>
      ((Op =? op_or)%Z ||
       ((Op =? op_and)%Z && negb (List.length Args =? 0)%nat))
      && forallb productive Args
  end.

(** No child of [Or ps] is shadowed: the alternative accepts an address
    exactly when one of its children accepts it. *)
Definition unshadowed (ps : list Pattern) : Prop :=
  forall a : Multiaddr,
    Matches (Or ps) a = Ok true <->
    exists p, In p ps /\ Matches p a = Ok true.

(** What a caller can observe of a partial match when it looks at codes
    only: the boolean and the codes of the remainder, or the panic. *)
Definition result_codes (r : result (bool * list Protocol))
  : result (bool * list Z) :=
  match r with
  | Ok (ok, rem) => Ok (ok, map Code rem)
  | Panic msg => Panic msg
  end.

(** The codes [DNS] and [IP] accept as the first segment. *)
Definition host_codes : list Z :=
  [P_DNSADDR; P_DNS4; P_DNS6; P_IP4; P_IP6].

Definition code_in (cs : list Z) (c : Z) : bool := existsb (Z.eqb c) cs.

(** * Properties *)

(** ** Unfolding equations *)

Lemma partialMatch_unfold (Args : list Pattern) (Op : Z) (pcs : list Protocol) :
  partialMatch (mk_pattern Args Op) pcs =
  if (Op =? op_or)%Z then or_loop partialMatch Args pcs
  else if (Op =? op_and)%Z then
    if (List.length pcs <? List.length Args)%nat then Ok (false, [])
    else and_loop partialMatch Args pcs
  else Panic "unrecognized pattern operand".
Proof. reflexivity. Qed.

Lemma partialMatch_Or (ps : list Pattern) (pcs : list Protocol) :
  partialMatch (Or ps) pcs = or_loop partialMatch ps pcs.
Proof. reflexivity. Qed.

Lemma partialMatch_And (ps : list Pattern) (pcs : list Protocol) :
  partialMatch (And ps) pcs =
  if (List.length pcs <? List.length ps)%nat then Ok (false, [])
  else and_loop partialMatch ps pcs.
Proof. reflexivity. Qed.

Lemma Matches_pattern (Args : list Pattern) (Op : Z) (a : Multiaddr) :
  Matches (mk_pattern Args Op) a =
  match partialMatch (mk_pattern Args Op) a with
  | Ok (ok, rem) => Ok (ok && (List.length rem =? 0)%nat)
  | Panic msg => Panic msg
  end.
Proof.
  unfold Matches, pattern_Matches, Protocols, bind.
  destruct (partialMatch (mk_pattern Args Op) a) as [[ok rem]|msg]; reflexivity.
Qed.

(** ** A failure carries no remainder *)

Section LoopFacts.
Variable call : Pattern -> list Protocol -> result (bool * list Protocol).

Lemma or_loop_false_nil (args : list Pattern) (pcs rem : list Protocol) :
  or_loop call args pcs = Ok (false, rem) -> rem = [].
Proof.
  induction args as [|a args IH]; simpl.
  - congruence.
  - destruct (call a pcs) as [[ok r]|msg]; simpl; [|discriminate].
    destruct ok; [discriminate | exact IH].
Qed.

Lemma and_loop_false_nil (args : list Pattern) (pcs rem : list Protocol) :
  and_loop call args pcs = Ok (false, rem) -> rem = [].
Proof.
  revert pcs; induction args as [|a args IH]; simpl; intros pcs.
  - discriminate.
  - destruct (call a pcs) as [[ok r]|msg]; simpl; [|discriminate].
    destruct ok; simpl; [apply IH | congruence].
Qed.
End LoopFacts.

Lemma partialMatch_false_nil (p : Pattern) (pcs rem : list Protocol) :
  partialMatch p pcs = Ok (false, rem) -> rem = [].
Proof.
  destruct p as [c|Args Op].
  - simpl. unfold Base_partialMatch.
    destruct pcs as [|p0 rest]; [congruence|].
    destruct (Code p0 =? c)%Z; congruence.
  - rewrite partialMatch_unfold.
    destruct (Op =? op_or)%Z; [apply or_loop_false_nil|].
    destruct (Op =? op_and)%Z; [|discriminate].
    destruct (List.length pcs <? List.length Args)%nat;
      [congruence | apply and_loop_false_nil].
Qed.

(** ** The loop of an alternative *)

Lemma or_loop_true_iff (ps : list Pattern) (pcs rem : list Protocol) :
  or_loop partialMatch ps pcs = Ok (true, rem) <->
  exists l1 p l2,
    ps = l1 ++ p :: l2 /\ Forall (fails_on pcs) l1 /\
    partialMatch p pcs = Ok (true, rem).
Proof.
  split.
  - induction ps as [|a ps IH]; simpl; [discriminate|].
    destruct (partialMatch a pcs) as [[ok r]|msg] eqn:E; simpl; [|discriminate].
    destruct ok; intros H.
    + exists [], a, ps. repeat split; [constructor | congruence].
    + destruct (IH H) as (l1 & p & l2 & -> & Hl1 & Hp).
      exists (a :: l1), p, l2. repeat split; trivial.
      constructor; trivial. unfold fails_on.
      rewrite E. now rewrite (partialMatch_false_nil _ _ _ E).
  - intros (l1 & p & l2 & -> & Hl1 & Hp).
    induction Hl1 as [|a l1 Ha _ IH]; simpl.
    + now rewrite Hp.
    + unfold fails_on in Ha. now rewrite Ha.
Qed.

Lemma or_loop_false_iff (ps : list Pattern) (pcs : list Protocol) :
  or_loop partialMatch ps pcs = Ok (false, []) <-> Forall (fails_on pcs) ps.
Proof.
  split.
  - induction ps as [|a ps IH]; simpl; [constructor|].
    destruct (partialMatch a pcs) as [[ok r]|msg] eqn:E; simpl; [|discriminate].
    destruct ok; [discriminate|]. intros H.
    constructor; [|auto]. unfold fails_on.
    rewrite E. now rewrite (partialMatch_false_nil _ _ _ E).
  - induction 1 as [|a ps Ha _ IH]; simpl; [reflexivity|].
    unfold fails_on in Ha. now rewrite Ha.
Qed.

(** ** The loop of a sequence *)

Lemma and_loop_true_iff (ps : list Pattern) (pcs rem : list Protocol) :
  and_loop partialMatch ps pcs = Ok (true, rem) <-> threads ps pcs rem.
Proof.
  split.
  - revert pcs; induction ps as [|a ps IH]; simpl; intros pcs.
    + intros [= ->]. constructor.
    + destruct (partialMatch a pcs) as [[ok r]|msg] eqn:E; simpl; [|discriminate].
      destruct ok; simpl; [|discriminate].
      intros H. econstructor; eauto.
  - induction 1 as [|p ps pcs mid rem' Hp _ IH]; simpl; [reflexivity|].
    now rewrite Hp.
Qed.

Lemma and_loop_false_iff (ps : list Pattern) (pcs : list Protocol) :
  and_loop partialMatch ps pcs = Ok (false, []) <->
  exists l1 p l2 mid,
    ps = l1 ++ p :: l2 /\ threads l1 pcs mid /\ fails_on mid p.
Proof.
  split.
  - revert pcs; induction ps as [|a ps IH]; simpl; intros pcs; [discriminate|].
    destruct (partialMatch a pcs) as [[ok r]|msg] eqn:E; simpl; [|discriminate].
    destruct ok; simpl; intros H.
    + destruct (IH _ H) as (l1 & p & l2 & mid & -> & Hl1 & Hp).
      exists (a :: l1), p, l2, mid. repeat split; trivial.
      econstructor; eauto.
    + exists [], a, ps, pcs. repeat split; [constructor|].
      unfold fails_on. rewrite E. now rewrite (partialMatch_false_nil _ _ _ E).
  - intros (l1 & p & l2 & mid & -> & Hl1 & Hp).
    induction Hl1 as [pcs|a l1 pcs mid' rem Ha _ IH]; simpl.
    + unfold fails_on in Hp. now rewrite Hp.
    + rewrite Ha. simpl. auto.
Qed.

Lemma threads_functional (ps : list Pattern) (pcs r1 r2 : list Protocol) :
  threads ps pcs r1 -> threads ps pcs r2 -> r1 = r2.
Proof.
  intros H1 H2. apply and_loop_true_iff in H1, H2. congruence.
Qed.

Lemma And_short_input (ps : list Pattern) (pcs : list Protocol) :
  List.length pcs < List.length ps ->
  partialMatch (And ps) pcs = Ok (false, []).
Proof.
  intros H. rewrite partialMatch_And.
  apply Nat.ltb_lt in H. now rewrite H.
Qed.

Lemma And_long_input (ps : list Pattern) (pcs : list Protocol) :
  List.length ps <= List.length pcs ->
  partialMatch (And ps) pcs = and_loop partialMatch ps pcs.
Proof.
  intros H. rewrite partialMatch_And.
  apply Nat.ltb_ge in H. now rewrite H.
Qed.

(** ** Full match and partial match *)

Lemma Matches_true_iff (p : Pattern) (s : Multiaddr) :
  Matches p s = Ok true <-> partialMatch p s = Ok (true, []).
Proof.
  destruct p as [c|Args Op].
  - simpl. unfold Base_Matches, Base_partialMatch, Protocols.
    destruct s as [|p0 [|p1 rest]]; simpl.
    + split; discriminate.
    + rewrite andb_true_r. destruct (Code p0 =? c)%Z; split; congruence.
    + rewrite andb_false_r. destruct (Code p0 =? c)%Z; split; congruence.
  - rewrite Matches_pattern.
    destruct (partialMatch (mk_pattern Args Op) s) as [[ok rem]|msg];
      [|split; discriminate].
    destruct ok, rem as [|x rem]; simpl; split; congruence.
Qed.

Lemma Matches_Or_false (ps : list Pattern) (s : Multiaddr) (x : Protocol)
      (rem : list Protocol) :
  partialMatch (Or ps) s = Ok (true, x :: rem) -> Matches (Or ps) s = Ok false.
Proof.
  intros H. unfold Or in *. rewrite Matches_pattern, H. reflexivity.
Qed.

(** ** Constructible patterns never reach the [default] branch *)

Lemma constructible_unfold (Args : list Pattern) (Op : Z) :
  constructible (mk_pattern Args Op) =
  ((Op =? op_or)%Z || (Op =? op_and)%Z) && forallb constructible Args.
Proof. reflexivity. Qed.

Section LoopTotal.
Variable call : Pattern -> list Protocol -> result (bool * list Protocol).

Lemma or_loop_ok (args : list Pattern) :
  Forall (fun a => forall q, exists r, call a q = Ok r) args ->
  forall pcs, exists r, or_loop call args pcs = Ok r.
Proof.
  induction 1 as [|a args Ha _ IH]; intros pcs; simpl; [eauto|].
  destruct (Ha pcs) as [[ok rem] ->]; simpl.
  destruct ok; eauto.
Qed.

Lemma and_loop_ok (args : list Pattern) :
  Forall (fun a => forall q, exists r, call a q = Ok r) args ->
  forall pcs, exists r, and_loop call args pcs = Ok r.
Proof.
  induction 1 as [|a args Ha _ IH]; intros pcs; simpl; [eauto|].
  destruct (Ha pcs) as [[ok rem] ->]; simpl.
  destruct ok; simpl; eauto.
Qed.

Lemma or_loop_suffix (args : list Pattern) :
  Forall (fun a => forall q r, call a q = Ok r -> exists pre, q = pre ++ snd r)
         args ->
  forall pcs r, or_loop call args pcs = Ok r -> exists pre, pcs = pre ++ snd r.
Proof.
  induction 1 as [|a args Ha _ IH]; intros pcs r; simpl.
  - intros [= <-]. exists pcs. simpl. now rewrite app_nil_r.
  - destruct (call a pcs) as [[ok rem]|msg] eqn:E; simpl; [|discriminate].
    destruct ok; [|apply IH].
    intros [= <-]. apply (Ha _ _ E).
Qed.

Lemma and_loop_suffix (args : list Pattern) :
  Forall (fun a => forall q r, call a q = Ok r -> exists pre, q = pre ++ snd r)
         args ->
  forall pcs r, and_loop call args pcs = Ok r -> exists pre, pcs = pre ++ snd r.
Proof.
  induction 1 as [|a args Ha _ IH]; intros pcs r; simpl.
  - intros [= <-]. now exists [].
  - destruct (call a pcs) as [[ok rem]|msg] eqn:E; simpl; [|discriminate].
    destruct ok; simpl.
    + intros H. destruct (IH _ _ H) as [pre2 H2].
      destruct (Ha _ _ E) as [pre1 H1]. simpl in H1.
      exists (pre1 ++ pre2). now rewrite <- app_assoc, <- H2.
    + intros [= <-]. exists pcs. simpl. now rewrite app_nil_r.
Qed.
End LoopTotal.

Lemma partialMatch_constructible (p : Pattern) :
  constructible p = true -> forall pcs, exists r, partialMatch p pcs = Ok r.
Proof.
  induction p as [c|Args Op IH] using Pattern_tree_ind; intros Hc pcs.
  - simpl. unfold Base_partialMatch.
    destruct pcs as [|p0 rest]; [eauto|]. destruct (Code p0 =? c)%Z; eauto.
  - rewrite constructible_unfold in Hc.
    apply andb_true_iff in Hc as [Hop Hargs].
    assert (Hall : Forall (fun a => forall q, exists r, partialMatch a q = Ok r)
                          Args).
    { rewrite forallb_forall in Hargs. rewrite Forall_forall in IH |- *.
      intros a Ha. apply IH; auto. }
    rewrite partialMatch_unfold.
    destruct (Op =? op_or)%Z; [now apply or_loop_ok|].
    simpl in Hop. rewrite Hop.
    destruct (List.length pcs <? List.length Args)%nat; [eauto|].
    now apply and_loop_ok.
Qed.

Lemma partialMatch_suffix (p : Pattern) :
  forall pcs r, partialMatch p pcs = Ok r -> exists pre, pcs = pre ++ snd r.
Proof.
  induction p as [c|Args Op IH] using Pattern_tree_ind; intros pcs r.
  - simpl. unfold Base_partialMatch.
    destruct pcs as [|p0 rest].
    + intros [= <-]. now exists [].
    + destruct (Code p0 =? c)%Z; intros [= <-]; simpl.
      * now exists [p0].
      * exists (p0 :: rest). now rewrite app_nil_r.
  - rewrite partialMatch_unfold.
    destruct (Op =? op_or)%Z; [now apply or_loop_suffix|].
    destruct (Op =? op_and)%Z; [|discriminate].
    destruct (List.length pcs <? List.length Args)%nat;
      [|now apply and_loop_suffix].
    intros [= <-]. exists pcs. simpl. now rewrite app_nil_r.
Qed.

Lemma Matches_constructible (p : Pattern) (s : Multiaddr) :
  constructible p = true ->
  s <> [] \/ (exists Args Op, p = mk_pattern Args Op) ->
  exists b, Matches p s = Ok b.
Proof.
  intros Hc Hs. destruct p as [c|Args Op].
  - destruct s as [|p0 rest]; simpl; unfold Base_Matches, Protocols; eauto.
    destruct Hs as [Hs|(A & O & Hs)]; [congruence | discriminate].
  - rewrite Matches_pattern.
    destruct (partialMatch_constructible _ Hc s) as [[ok rem] ->]. eauto.
Qed.

(** ** A budget of [depth + 1] nested calls is enough *)

Section FuelFacts.
Variable callf :
  Pattern -> list Protocol -> option (result (bool * list Protocol)).
Variable call : Pattern -> list Protocol -> result (bool * list Protocol).

Lemma or_loop_fuel_agree (args : list Pattern) :
  Forall (fun a => forall q, callf a q = Some (call a q)) args ->
  forall pcs, or_loop_fuel callf args pcs = Some (or_loop call args pcs).
Proof.
  induction 1 as [|a args Ha _ IH]; intros pcs; simpl; [reflexivity|].
  rewrite Ha. destruct (call a pcs) as [[ok rem]|msg]; simpl; [|reflexivity].
  destruct ok; [reflexivity | apply IH].
Qed.

Lemma and_loop_fuel_agree (args : list Pattern) :
  Forall (fun a => forall q, callf a q = Some (call a q)) args ->
  forall pcs, and_loop_fuel callf args pcs = Some (and_loop call args pcs).
Proof.
  induction 1 as [|a args Ha _ IH]; intros pcs; simpl; [reflexivity|].
  rewrite Ha. destruct (call a pcs) as [[ok rem]|msg]; simpl; [|reflexivity].
  destruct ok; simpl; [apply IH | reflexivity].
Qed.
End FuelFacts.

Lemma depth_child (a : Pattern) (Args : list Pattern) :
  In a Args -> depth a <= list_max (map depth Args).
Proof.
  induction Args as [|b Args IH]; simpl; [tauto|].
  intros [->|H]; [|specialize (IH H)]; lia.
Qed.

Lemma partialMatch_fuel_enough (p : Pattern) :
  forall fuel pcs,
    depth p < fuel -> partialMatch_fuel fuel p pcs = Some (partialMatch p pcs).
Proof.
  induction p as [c|Args Op IH] using Pattern_tree_ind; intros fuel pcs Hd;
    (destruct fuel as [|fuel]; [lia|]).
  - reflexivity.
  - simpl in Hd.
    assert (Hall : Forall (fun a => forall q,
                     partialMatch_fuel fuel a q = Some (partialMatch a q)) Args).
    { rewrite Forall_forall in IH |- *. intros a Ha q. apply IH; trivial.
      pose proof (depth_child a Args Ha). lia. }
    rewrite partialMatch_unfold. simpl.
    destruct (Op =? op_or)%Z; [now apply or_loop_fuel_agree|].
    destruct (Op =? op_and)%Z; [|reflexivity].
    destruct (List.length pcs <? List.length Args)%nat; [reflexivity|].
    now apply and_loop_fuel_agree.
Qed.

Lemma Matches_fuel_enough (p : Pattern) (fuel : nat) (s : Multiaddr) :
  S (depth p) < fuel -> Matches_fuel fuel p s = Some (Matches p s).
Proof.
  intros Hd. destruct fuel as [|fuel]; [lia|].
  destruct p as [c|Args Op]; [reflexivity|].
  unfold Matches_fuel. rewrite partialMatch_fuel_enough by lia.
  rewrite Matches_pattern. unfold Protocols.
  destruct (partialMatch (mk_pattern Args Op) s) as [[ok rem]|msg]; reflexivity.
Qed.

(** ** Rendering *)

Lemma string_app_assoc (a b c : string) :
  ((a ++ b) ++ c)%string = (a ++ (b ++ c))%string.
Proof.
  induction a as [|ch a IH]; simpl; [reflexivity | now rewrite IH].
Qed.

Lemma concat_app_head (sep a b : string) (rest : list string) :
  String.concat sep ((a ++ b)%string :: rest) =
  (a ++ String.concat sep (b :: rest))%string.
Proof.
  destruct rest as [|x rest]; simpl; [reflexivity|].
  apply string_app_assoc.
Qed.

Lemma Join_concat (elems : list string) (sep : string) :
  Join elems sep = String.concat sep elems.
Proof.
  destruct elems as [|e rest]; [reflexivity|].
  unfold Join. revert e.
  induction rest as [|x rest IH]; intros e; [reflexivity|].
  cbn [fold_left]. rewrite IH.
  rewrite string_app_assoc, !concat_app_head. reflexivity.
Qed.

Lemma sub_loop_map (call : Pattern -> result string) (f : Pattern -> string)
      (args : list Pattern) :
  Forall (fun a => call a = Ok (f a)) args ->
  forall sub, sub_loop call args sub = Ok (sub ++ map f args).
Proof.
  induction 1 as [|a args Ha _ IH]; intros sub; simpl.
  - now rewrite app_nil_r.
  - rewrite Ha. simpl. rewrite IH. now rewrite <- app_assoc.
Qed.

Lemma toString_unfold (registry : Z -> Protocol) (Args : list Pattern) (Op : Z) :
  toString registry (mk_pattern Args Op) =
  (sub <- sub_loop (toString registry) Args [] ;;
   if (Op =? op_and)%Z then Ok (Join sub "/")
   else if (Op =? op_or)%Z then Ok ("{" ++ Join sub "|" ++ "}")%string
   else Panic "unrecognized pattern op!").
Proof. reflexivity. Qed.

Lemma toString_render (registry : Z -> Protocol) (p : Pattern) :
  constructible p = true ->
  toString registry p = Ok (render_spec registry p).
Proof.
  induction p as [c|Args Op IH] using Pattern_tree_ind; intros Hc;
    [reflexivity|].
  rewrite constructible_unfold in Hc.
  apply andb_true_iff in Hc as [Hop Hargs].
  assert (Hall : Forall (fun a => toString registry a =
                                  Ok (render_spec registry a)) Args).
  { rewrite forallb_forall in Hargs. rewrite Forall_forall in IH |- *.
    intros a Ha. apply IH; auto. }
  rewrite toString_unfold, (sub_loop_map _ _ _ Hall). simpl.
  rewrite !Join_concat.
  destruct (Op =? op_or)%Z eqn:Eor.
  - apply Z.eqb_eq in Eor. subst Op. reflexivity.
  - simpl in Hop. now rewrite Hop.
Qed.

Lemma Base_Matches_single (c : Z) (x : Protocol) :
  Matches (Base c) [x] = Ok (Code x =? c)%Z.
Proof.
  simpl. unfold Base_Matches, Protocols. simpl. now rewrite andb_true_r.
Qed.

Lemma Base_Matches_many (c : Z) (x y : Protocol) (rest : list Protocol) :
  Matches (Base c) (x :: y :: rest) = Ok false.
Proof.
  simpl. unfold Base_Matches, Protocols. simpl. now rewrite andb_false_r.
Qed.

(** ** The pattern library on sample addresses *)

Example Reliable_ip4_tcp : Matches Reliable (addr [P_IP4; P_TCP]) = Ok true.
Proof. reflexivity. Qed.

Example Reliable_ip4_udp : Matches Reliable (addr [P_IP4; P_UDP]) = Ok false.
Proof. reflexivity. Qed.

Example Reliable_ip4_udp_quic :
  Matches Reliable (addr [P_IP4; P_UDP; P_QUIC]) = Ok true.
Proof. reflexivity. Qed.

Example Reliable_trailing_http :
  Matches Reliable (addr [P_IP4; P_TCP; P_HTTP]) = Ok false /\
  Matches (And [Reliable; Base P_HTTP]) (addr [P_IP4; P_TCP; P_HTTP]) = Ok true.
Proof. split; reflexivity. Qed.

Example HTTP_over_dns :
  Matches HTTP (addr [P_DNS4; P_HTTP]) = Ok true /\
  Matches HTTP (addr [P_DNS4; P_TCP; P_HTTP]) = Ok true.
Proof. split; reflexivity. Qed.

Example library_constructible :
  forallb constructible
    [DNS; IP; TCP; UDP; UTP; QUIC; GARLIC; Unreliable; Reliable; IPFS; HTTP;
     HTTPS; WebRTCDirect] = true.
Proof. reflexivity. Qed.

Example TCP_renders :
  toString sample_registry TCP = Ok "{{dnsaddr|dns4|dns6}/tcp|{ip4|ip6}/tcp}".
Proof. reflexivity. Qed.

Example ip4_tcp_renders :
  toString sample_registry (And [Base P_IP4; Base P_TCP]) = Ok "ip4/tcp" /\
  toString sample_registry (Or [Base P_TCP; Base P_UDP]) = Ok "{tcp|udp}".
Proof. split; reflexivity. Qed.

(** An operator tag outside [or] / [and] reaches the [default] branch; a
    child after the first success of an alternative is not run, so its
    panic is not seen. *)
Example unknown_op_panics :
  partialMatch (mk_pattern [] 7) [] = Panic "unrecognized pattern operand" /\
  partialMatch (Or [Base P_IP4; mk_pattern [] 7]) (addr [P_IP4]) =
  Ok (true, []).
Proof. split; reflexivity. Qed.

(** * The claims *)

(** C1 (as stated, refuted): with [P1 = ip4] and [P2 = ip4/tcp], the address
    [ip4, tcp] is full-matched by the child [P2], yet the alternative
    [{P1|P2}] does not full-match it: [P1] partially matches the proper
    prefix [ip4], the loop returns that success with remainder [tcp], and
    [P2] is never tried.  So "full-matches iff some child full-matches"
    fails at this input. *)
Lemma Or_Matches_some_child_refuted :
  partialMatch shadow_P1 shadow_addr = Ok (true, addr [P_TCP]) /\
  Matches shadow_P1 shadow_addr = Ok false /\
  Matches shadow_P2 shadow_addr = Ok true /\
  Matches (Or [shadow_P1; shadow_P2]) shadow_addr = Ok false /\
  ~ (Matches (Or [shadow_P1; shadow_P2]) shadow_addr = Ok true <->
     exists Pi, In Pi [shadow_P1; shadow_P2] /\
                Matches Pi shadow_addr = Ok true).
Proof.
  repeat split; try reflexivity.
  intros [_ H].
  assert (E : Matches (Or [shadow_P1; shadow_P2]) shadow_addr = Ok true).
  { apply H. exists shadow_P2. split; [simpl; auto | reflexivity]. }
  vm_compute in E. discriminate E.
Qed.

(** C1 (amended): an alternative full-matches [s] if and only if the first
    child, in listed order, whose partial match on [s] succeeds returns the
    empty remainder; that child then full-matches [s].  When the first
    succeeding child leaves a non-empty remainder, the alternative does not
    full-match [s], whatever the later children would do. *)
Theorem Or_Matches_first_success (ps : list Pattern) (s : Multiaddr) :
  (Matches (Or ps) s = Ok true <->
   exists l1 p l2,
     ps = l1 ++ p :: l2 /\ Forall (fails_on s) l1 /\
     partialMatch p s = Ok (true, []) /\ Matches p s = Ok true) /\
  (forall l1 p l2 x rem,
     ps = l1 ++ p :: l2 -> Forall (fails_on s) l1 ->
     partialMatch p s = Ok (true, x :: rem) ->
     Matches (Or ps) s = Ok false).
Proof.
  split.
  - rewrite Matches_true_iff, partialMatch_Or, or_loop_true_iff.
    split; intros (l1 & p & l2 & H); exists l1, p, l2.
    + destruct H as (-> & Hl1 & Hp). repeat split; trivial.
      now apply Matches_true_iff.
    + tauto.
  - intros l1 p l2 x rem -> Hl1 Hp.
    apply Matches_Or_false with (x := x) (rem := rem).
    rewrite partialMatch_Or. apply or_loop_true_iff.
    exists l1, p, l2. repeat split; assumption.
Qed.

Lemma Or_Matches_first_success_witness :
  Forall (fails_on (addr [P_IP4])) [Base P_TCP] /\
  partialMatch (Base P_IP4) (addr [P_IP4]) = Ok (true, []) /\
  Matches (Or [Base P_TCP; Base P_IP4]) (addr [P_IP4]) = Ok true.
Proof.
  assert (H1 : Forall (fails_on (addr [P_IP4])) [Base P_TCP])
    by (repeat constructor).
  assert (H2 : partialMatch (Base P_IP4) (addr [P_IP4]) = Ok (true, []))
    by reflexivity.
  split; [exact H1 | split; [exact H2|]].
  apply (proj1 (Or_Matches_first_success [Base P_TCP; Base P_IP4]
                                         (addr [P_IP4]))).
  exists [Base P_TCP], (Base P_IP4), [].
  split; [reflexivity | split; [exact H1 | split; [exact H2 | reflexivity]]].
Defined.

(** C2 (code defect): [Matches] is not a plain boolean for every
    constructible pattern and every address: on the empty address an atom
    reads [pcs[0]] and panics, so no boolean is returned. *)
Theorem Matches_Base_empty_no_bool (c : Z) :
  constructible (Base c) = true /\ forall b, Matches (Base c) [] <> Ok b.
Proof.
  split; [reflexivity|]. intros b. simpl. unfold Base_Matches. simpl.
  discriminate.
Qed.

(** C3 (code defect): the full match of an atom against the empty address
    does not return [false]; it panics with an index error. *)
Theorem Base_Matches_empty_panics (c : Z) :
  Matches (Base c) [] =
  Panic "runtime error: index out of range [0] with length 0".
Proof. reflexivity. Qed.

(** C4: [partialMatch] of a sequence of [N] children fails on an input of
    fewer than [N] segments; on a longer input it succeeds with remainder
    [rem] exactly when the children succeed in listed order, each on the
    remainder of the previous one, [rem] being the remainder of the last;
    and it fails exactly when some child fails on the remainder reached by
    the children before it (which all succeeded, and are not retried). *)
Theorem And_partialMatch_spec (ps : list Pattern) (pcs : list Protocol) :
  (List.length pcs < List.length ps ->
   partialMatch (And ps) pcs = Ok (false, [])) /\
  (List.length ps <= List.length pcs ->
   (forall rem,
      partialMatch (And ps) pcs = Ok (true, rem) <-> threads ps pcs rem) /\
   (partialMatch (And ps) pcs = Ok (false, []) <->
    exists l1 p l2 mid,
      ps = l1 ++ p :: l2 /\ threads l1 pcs mid /\ fails_on mid p)).
Proof.
  split; [apply And_short_input|].
  intros Hlen. rewrite (And_long_input _ _ Hlen). split.
  - intros rem. apply and_loop_true_iff.
  - apply and_loop_false_iff.
Qed.

Lemma And_partialMatch_spec_witness :
  List.length [Base P_IP4; Base P_TCP] <= List.length (addr [P_IP4; P_TCP]) /\
  threads [Base P_IP4; Base P_TCP] (addr [P_IP4; P_TCP]) [].
Proof.
  assert (H : List.length [Base P_IP4; Base P_TCP]
              <= List.length (addr [P_IP4; P_TCP])) by (simpl; lia).
  split; [exact H|].
  apply (proj1 (proj2 (And_partialMatch_spec [Base P_IP4; Base P_TCP]
                                             (addr [P_IP4; P_TCP])) H)).
  reflexivity.
Defined.

(** C5: [partialMatch] of an alternative returns [(true, rem)] exactly when
    some child succeeds with [rem] and every child listed before it fails;
    the children listed after it play no part (they may be anything).  It
    fails exactly when every child fails. *)
Theorem Or_partialMatch_first_success (pcs : list Protocol) :
  (forall ps rem,
     partialMatch (Or ps) pcs = Ok (true, rem) <->
     exists l1 p l2,
       ps = l1 ++ p :: l2 /\ Forall (fails_on pcs) l1 /\
       partialMatch p pcs = Ok (true, rem)) /\
  (forall ps,
     partialMatch (Or ps) pcs = Ok (false, []) <-> Forall (fails_on pcs) ps) /\
  (forall l1 p rem,
     Forall (fails_on pcs) l1 -> partialMatch p pcs = Ok (true, rem) ->
     forall l2, partialMatch (Or (l1 ++ p :: l2)) pcs = Ok (true, rem)).
Proof.
  split; [|split].
  - intros ps rem. rewrite partialMatch_Or. apply or_loop_true_iff.
  - intros ps. rewrite partialMatch_Or. apply or_loop_false_iff.
  - intros l1 p rem Hl1 Hp l2.
    rewrite partialMatch_Or. apply or_loop_true_iff.
    exists l1, p, l2. repeat split; assumption.
Qed.

Lemma Or_partialMatch_first_success_witness :
  Forall (fails_on (addr [P_IP4; P_TCP])) [Base P_TCP] /\
  partialMatch (Or [Base P_TCP; Base P_IP4; mk_pattern [] 7])
               (addr [P_IP4; P_TCP]) = Ok (true, addr [P_TCP]).
Proof.
  assert (H : Forall (fails_on (addr [P_IP4; P_TCP])) [Base P_TCP])
    by (repeat constructor).
  split; [exact H|].
  exact (proj2 (proj2 (Or_partialMatch_first_success (addr [P_IP4; P_TCP])))
               [Base P_TCP] (Base P_IP4) (addr [P_TCP]) H eq_refl
               [mk_pattern [] 7]).
Defined.

(** C6: the sequence with no children full-matches the empty address and no
    other; the alternative with no children full-matches no address. *)
Theorem empty_And_Or_Matches :
  Matches (And []) [] = Ok true /\
  (forall x s, Matches (And []) (x :: s) = Ok false) /\
  (forall s, Matches (Or []) s = Ok false).
Proof. repeat split. Qed.

(** C7: there are patterns [A], [B], [C] and an address [s] such that [A]
    partially matches a prefix of [s], the alternative [{A|B}] commits to
    the remainder of [A], [C] fails on that remainder, and so the sequence
    [{A|B}/C] does not full-match [s], although [B/C] does. *)
Theorem no_backtracking_into_Or :
  exists (A B C : Pattern) (s : Multiaddr) (rem : list Protocol),
    partialMatch A s = Ok (true, rem) /\
    partialMatch (Or [A; B]) s = Ok (true, rem) /\
    partialMatch C rem = Ok (false, []) /\
    Matches (And [Or [A; B]; C]) s = Ok false /\
    Matches (And [B; C]) s = Ok true.
Proof.
  exists (Base P_IP4), (And [Base P_IP4; Base P_TCP]), (Base P_HTTP),
         (addr [P_IP4; P_TCP; P_HTTP]), (addr [P_TCP; P_HTTP]).
  repeat split.
Qed.

(** C8: for every constructible pattern tree, [String] returns the
    documented rendering: the registry name for an atom, the renderings of
    the children joined by a slash for a sequence, and joined by a bar
    inside braces for an alternative. *)
Theorem toString_renders (registry : Z -> Protocol) (p : Pattern) :
  constructible p = true ->
  toString registry p = Ok (render_spec registry p) /\
  (forall c, render_spec registry (Base c) = Name (registry c)) /\
  (forall ps, render_spec registry (And ps) =
              String.concat "/" (map (render_spec registry) ps)) /\
  (forall ps, render_spec registry (Or ps) =
              ("{" ++ String.concat "|" (map (render_spec registry) ps) ++ "}")%string).
Proof.
  intros Hc. repeat split. now apply toString_render.
Qed.

Lemma toString_renders_witness :
  constructible (And [Or [Base P_TCP; Base P_UDP]; Base P_HTTP]) = true /\
  toString sample_registry (And [Or [Base P_TCP; Base P_UDP]; Base P_HTTP]) =
  Ok "{tcp|udp}/http".
Proof.
  split; [reflexivity|].
  exact (proj1 (toString_renders sample_registry
                  (And [Or [Base P_TCP; Base P_UDP]; Base P_HTTP])
                  eq_refl)).
Defined.

(** C9: matching terminates.  A budget of nested calls that depends on the
    height of the pattern only ([depth + 1] for [partialMatch], one more for
    [Matches]) is enough on every input, whatever the operator tags; and the
    remainder a call returns is a suffix of its input, so it never grows. *)
Theorem partialMatch_terminates (p : Pattern) (pcs : list Protocol) (k : nat) :
  partialMatch_fuel (S (depth p) + k) p pcs = Some (partialMatch p pcs) /\
  Matches_fuel (S (S (depth p)) + k) p pcs = Some (Matches p pcs) /\
  match partialMatch p pcs with
  | Ok (_, rem) => exists consumed, pcs = consumed ++ rem
  | Panic _ => True
  end.
Proof.
  split; [|split].
  - apply partialMatch_fuel_enough. lia.
  - apply Matches_fuel_enough. lia.
  - destruct (partialMatch p pcs) as [[ok rem]|msg] eqn:E; [|exact I].
    apply (partialMatch_suffix _ _ _ E).
Qed.

(** C10: the length check of a sequence decides the result: on an input
    with fewer segments than children the partial match fails and the full
    match is [false], even for [And [And []]] on the empty address, whose
    only child succeeds on it consuming nothing. *)
Theorem And_length_check_decides (ps : list Pattern) (pcs : list Protocol) :
  List.length pcs < List.length ps ->
  partialMatch (And ps) pcs = Ok (false, []) /\
  Matches (And ps) pcs = Ok false /\
  partialMatch (And []) [] = Ok (true, []) /\
  Matches (And [And []]) [] = Ok false.
Proof.
  intros H. pose proof (And_short_input _ _ H) as E.
  repeat split; trivial.
  unfold And in *. now rewrite Matches_pattern, E.
Qed.

Lemma And_length_check_decides_witness :
  List.length (@nil Protocol) < List.length [And []] /\
  partialMatch (And [And []]) [] = Ok (false, []) /\
  Matches (And [And []]) [] = Ok false.
Proof.
  split; [simpl; lia|].
  destruct (And_length_check_decides [And []] []) as (H1 & H2 & _);
    [simpl; lia | split; assumption].
Defined.

(** * Further properties of the matcher *)

(** ** Helper facts on the two loops *)

Section LoopAppend.
Variable call : Pattern -> list Protocol -> result (bool * list Protocol).

Lemma or_loop_app (l1 l2 : list Pattern) (pcs : list Protocol) :
  or_loop call (l1 ++ l2) pcs =
  match or_loop call l1 pcs with
  | Ok (true, rem) => Ok (true, rem)
  | Ok (false, _) => or_loop call l2 pcs
  | Panic msg => Panic msg
  end.
Proof.
  induction l1 as [|a l1 IH]; simpl; [reflexivity|].
  destruct (call a pcs) as [[ok rem]|msg]; simpl; [|reflexivity].
  destruct ok; [reflexivity | exact IH].
Qed.

Lemma and_loop_app (l1 l2 : list Pattern) (pcs : list Protocol) :
  and_loop call (l1 ++ l2) pcs =
  match and_loop call l1 pcs with
  | Ok (true, mid) => and_loop call l2 mid
  | Ok (false, _) => Ok (false, [])
  | Panic msg => Panic msg
  end.
Proof.
  revert pcs; induction l1 as [|a l1 IH]; intros pcs; simpl; [reflexivity|].
  destruct (call a pcs) as [[ok rem]|msg]; simpl; [|reflexivity].
  destruct ok; simpl; [apply IH | reflexivity].
Qed.
End LoopAppend.

Lemma or_loop_normal (ps : list Pattern) (pcs : list Protocol) :
  (r <- or_loop partialMatch ps pcs ;;
   if fst r then Ok (true, snd r) else Ok (false, [])) =
  or_loop partialMatch ps pcs.
Proof.
  destruct (or_loop partialMatch ps pcs) as [[ok rem]|msg] eqn:E; simpl;
    [|reflexivity].
  destruct ok; [reflexivity|].
  now rewrite (or_loop_false_nil _ _ _ _ E).
Qed.

Lemma partialMatch_normal (p : Pattern) (pcs : list Protocol) :
  (r <- partialMatch p pcs ;;
   if fst r then Ok (true, snd r) else Ok (false, [])) = partialMatch p pcs.
Proof.
  destruct (partialMatch p pcs) as [[ok rem]|msg] eqn:E; simpl; [|reflexivity].
  destruct ok; [reflexivity|].
  now rewrite (partialMatch_false_nil _ _ _ E).
Qed.

(** ** The two implementations of [Matches] *)

(** X1: [Base.Matches] is written on its own, not through [partialMatch];
    on every non-empty address it returns what the partial match followed
    by the empty-remainder test returns, as [pattern.Matches] does, and for
    every pattern a full match is [true] exactly when the partial match
    succeeds with nothing left. *)
Theorem Matches_is_exhaustive_partialMatch (p : Pattern) :
  (forall x s,
     Matches p (x :: s) =
     match partialMatch p (x :: s) with
     | Ok (ok, rem) => Ok (ok && (List.length rem =? 0)%nat)
     | Panic msg => Panic msg
     end) /\
  (forall s, Matches p s = Ok true <-> partialMatch p s = Ok (true, [])).
Proof.
  split; [|intros s; apply Matches_true_iff].
  intros x s. destruct p as [c|Args Op]; [|apply Matches_pattern].
  simpl. unfold Base_Matches, Base_partialMatch, Protocols.
  destruct (Code x =? c)%Z; simpl; [|reflexivity].
  destruct s; reflexivity.
Qed.

(** X2: whenever a partial match reports failure, the remainder it returns
    is [nil], for every pattern tree: a failed child of an alternative or of
    a sequence never leaks a partly consumed input. *)
Theorem partialMatch_failure_has_no_remainder
        (p : Pattern) (pcs rem : list Protocol) :
  partialMatch p pcs = Ok (false, rem) -> rem = [].
Proof. apply partialMatch_false_nil. Qed.

Lemma partialMatch_failure_has_no_remainder_witness :
  partialMatch TCP (addr [P_IP4; P_UDP; P_QUIC]) = Ok (false, []) /\
  (@nil Protocol) = [].
Proof.
  split; [reflexivity|].
  exact (partialMatch_failure_has_no_remainder
           TCP (addr [P_IP4; P_UDP; P_QUIC]) [] eq_refl).
Defined.

(** ** Panics *)

(** X3: on a pattern built with [Base], [And] and [Or] the partial match
    never panics: it returns a boolean and a remainder on every input. *)
Theorem partialMatch_never_panics (p : Pattern) (pcs : list Protocol) :
  constructible p = true ->
  exists ok rem, partialMatch p pcs = Ok (ok, rem).
Proof.
  intros Hc. destruct (partialMatch_constructible p Hc pcs) as [[ok rem] E].
  eauto.
Qed.

Lemma partialMatch_never_panics_witness :
  constructible WebRTCDirect = true /\
  exists ok rem, partialMatch WebRTCDirect (addr [P_IP4; P_HTTP]) = Ok (ok, rem).
Proof.
  split; [reflexivity|].
  exact (partialMatch_never_panics WebRTCDirect (addr [P_IP4; P_HTTP]) eq_refl).
Defined.

(** X4: on a pattern built with [Base], [And] and [Or], the full match
    panics in exactly one situation: the pattern is an atom and the address
    is empty.  Every [And] / [Or] pattern returns a boolean on every
    address, and every pattern does on every non-empty address. *)
Theorem Matches_panics_iff_Base_on_empty (p : Pattern) (s : Multiaddr) :
  constructible p = true ->
  ((exists msg, Matches p s = Panic msg) <-> (exists c, p = Base c) /\ s = []) /\
  ((exists b, Matches p s = Ok b) <->
   s <> [] \/ exists Args Op, p = mk_pattern Args Op).
Proof.
  intros Hc.
  destruct p as [c|Args Op].
  - destruct s as [|x s]; simpl; unfold Base_Matches, Protocols; simpl.
    + split; split.
      * intros _. split; [now exists c | reflexivity].
      * intros _. eauto.
      * intros [b Hb]. discriminate Hb.
      * intros [H|(A & O & H)]; [congruence | discriminate H].
    + split; split.
      * intros [msg H]. discriminate H.
      * intros [_ H]. discriminate H.
      * intros _. left. discriminate.
      * intros _. eauto.
  - destruct (Matches_constructible (mk_pattern Args Op) s Hc) as [b Hb];
      [right; eauto|].
    split; split.
    + intros [msg H]. congruence.
    + intros [[c H] _]. discriminate H.
    + intros _. right. eauto.
    + intros _. eauto.
Qed.

Lemma Matches_panics_iff_Base_on_empty_witness :
  constructible (Base P_TCP) = true /\
  exists msg, Matches (Base P_TCP) [] = Panic msg.
Proof.
  split; [reflexivity|].
  apply (proj1 (Matches_panics_iff_Base_on_empty (Base P_TCP) [] eq_refl)).
  split; [now exists P_TCP | reflexivity].
Defined.

Lemma sub_loop_ok_inv (call : Pattern -> result string) (args : list Pattern) :
  forall sub out,
    sub_loop call args sub = Ok out ->
    Forall (fun a => exists s, call a = Ok s) args.
Proof.
  induction args as [|a args IH]; intros sub out; simpl; [constructor|].
  destruct (call a) as [s|msg] eqn:E; simpl; [|discriminate].
  intros H. constructor; [eauto | eapply IH; eauto].
Qed.

(** X5: [String] returns a text exactly on the patterns built with [Base],
    [And] and [Or]: it visits every child before it looks at the operator,
    so one unknown operator anywhere in the tree makes it panic. *)
Theorem toString_ok_iff_constructible (registry : Z -> Protocol) (p : Pattern) :
  (exists s, toString registry p = Ok s) <-> constructible p = true.
Proof.
  split; [|intros Hc; rewrite (toString_render registry p Hc); eauto].
  induction p as [c|Args Op IH] using Pattern_tree_ind; [reflexivity|].
  intros [s Hs]. rewrite toString_unfold in Hs.
  destruct (sub_loop (toString registry) Args []) as [sub|msg] eqn:E;
    simpl in Hs; [|discriminate].
  apply sub_loop_ok_inv in E.
  rewrite constructible_unfold. apply andb_true_iff. split.
  - destruct (Op =? op_and)%Z; [apply orb_true_r|].
    destruct (Op =? op_or)%Z; [reflexivity | discriminate].
  - apply forallb_forall. intros a Ha.
    rewrite Forall_forall in IH, E. apply IH; auto.
Qed.

(** ** Composition of alternatives and sequences *)

(** X6: an alternative nested in an alternative can be flattened: replacing
    the child [Or l2] by the children [l2] themselves changes neither the
    partial match nor the full match, on any input and for any children
    (panics included). *)
Theorem Or_flatten (l1 l2 l3 : list Pattern) (a : list Protocol) :
  partialMatch (Or (l1 ++ Or l2 :: l3)) a =
  partialMatch (Or (l1 ++ l2 ++ l3)) a /\
  Matches (Or (l1 ++ Or l2 :: l3)) a = Matches (Or (l1 ++ l2 ++ l3)) a.
Proof.
  assert (E : partialMatch (Or (l1 ++ Or l2 :: l3)) a =
              partialMatch (Or (l1 ++ l2 ++ l3)) a).
  { assert (S : or_loop partialMatch [Or l2] a = or_loop partialMatch l2 a).
    { cbn [or_loop]. rewrite partialMatch_normal. apply partialMatch_Or. }
    rewrite !partialMatch_Or.
    change (l1 ++ Or l2 :: l3) with (l1 ++ [Or l2] ++ l3).
    rewrite !or_loop_app, S. reflexivity. }
  split; [exact E|].
  unfold Or in *. now rewrite !Matches_pattern, E.
Qed.

(** X7: an alternative of one child behaves as the child for the partial
    match; a sequence of one child does so on a non-empty input but fails
    on the empty input whatever the child is.  In particular [Unreliable],
    declared as [Or(UDP)], accepts the same addresses as [UDP]. *)
Theorem singleton_Or_And (p : Pattern) :
  (forall pcs, partialMatch (Or [p]) pcs = partialMatch p pcs) /\
  (forall x pcs, partialMatch (And [p]) (x :: pcs) = partialMatch p (x :: pcs)) /\
  partialMatch (And [p]) [] = Ok (false, []) /\
  (forall a, Matches Unreliable a = Matches UDP a).
Proof.
  assert (HOr : forall q pcs, partialMatch (Or [q]) pcs = partialMatch q pcs).
  { intros q pcs. rewrite partialMatch_Or. simpl. apply partialMatch_normal. }
  split; [apply HOr | split; [|split; [reflexivity|]]].
  - intros x pcs. rewrite partialMatch_And. simpl.
    destruct (partialMatch p (x :: pcs)) as [[ok rem]|msg] eqn:E; simpl;
      [|reflexivity].
    destruct ok; simpl; [reflexivity|].
    now rewrite (partialMatch_false_nil _ _ _ E).
  - intros a. unfold Unreliable, UDP, Or. rewrite !Matches_pattern.
    fold (Or [mk_pattern [And [DNS; Base P_UDP]; And [IP; Base P_UDP]] op_or]).
    now rewrite HOr.
Qed.

(** ** Soundness for the declarative reading *)

Lemma threads_denotes (ps : list Pattern) :
  Forall (fun p => forall pcs rem,
            partialMatch p pcs = Ok (true, rem) ->
            exists consumed,
              pcs = consumed ++ rem /\ denotes p (map Code consumed)) ps ->
  forall pcs rem,
    threads ps pcs rem ->
    exists consumed parts,
      pcs = consumed ++ rem /\ Forall2 denotes ps parts /\
      map Code consumed = List.concat parts.
Proof.
  induction 1 as [|p ps Hp _ IH]; intros pcs rem Ht;
    inversion Ht as [|p' ps' pcs' mid rem' Hpm Hrest]; subst.
  - exists [], []. repeat split; constructor.
  - destruct (Hp _ _ Hpm) as (c1 & -> & Hd).
    destruct (IH _ _ Hrest) as (c2 & parts & -> & Hparts & Hc).
    exists (c1 ++ c2), (map Code c1 :: parts). repeat split.
    + now rewrite app_assoc.
    + now constructor.
    + simpl. now rewrite map_app, Hc.
Qed.

Lemma partialMatch_denotes (p : Pattern) :
  forall pcs rem,
    partialMatch p pcs = Ok (true, rem) ->
    exists consumed, pcs = consumed ++ rem /\ denotes p (map Code consumed).
Proof.
  induction p as [c|Args Op IH] using Pattern_tree_ind; intros pcs rem.
  - simpl. unfold Base_partialMatch.
    destruct pcs as [|x rest]; [discriminate|].
    destruct (Code x =? c)%Z eqn:E; [|discriminate].
    intros [= <-]. apply Z.eqb_eq in E. exists [x]. split; [reflexivity|].
    simpl. rewrite E. constructor.
  - rewrite partialMatch_unfold.
    destruct (Op =? op_or)%Z eqn:Eor.
    + apply Z.eqb_eq in Eor. subst Op. intros H.
      apply or_loop_true_iff in H as (l1 & q & l2 & -> & _ & Hq).
      rewrite Forall_forall in IH.
      destruct (IH q (in_elt q l1 l2) _ _ Hq) as (consumed & -> & Hd).
      exists consumed. split; [reflexivity|].
      apply denotes_Or with (p := q); [apply in_elt | exact Hd].
    + destruct (Op =? op_and)%Z eqn:Eand; [|discriminate].
      apply Z.eqb_eq in Eand. subst Op.
      destruct (List.length pcs <? List.length Args)%nat; [discriminate|].
      intros H. apply and_loop_true_iff in H.
      destruct (threads_denotes Args IH _ _ H) as (consumed & parts & -> & Hp & Hc).
      exists consumed. split; [reflexivity|].
      rewrite Hc. now apply denotes_And.
Qed.

(** X8: the matcher is sound for the declarative reading of patterns: when
    a partial match succeeds, the segments it consumed (the input without
    the returned remainder) are an instance of the pattern, and an address
    the full match accepts is an instance of the pattern.  (The converse
    fails: the first-success rule and the length check reject instances.) *)
Theorem Matches_sound (p : Pattern) (pcs rem : list Protocol) :
  (partialMatch p pcs = Ok (true, rem) ->
   exists consumed, pcs = consumed ++ rem /\ denotes p (map Code consumed)) /\
  (Matches p pcs = Ok true -> denotes p (map Code pcs)).
Proof.
  split; [apply partialMatch_denotes|].
  intros H. apply Matches_true_iff in H.
  destruct (partialMatch_denotes _ _ _ H) as (consumed & -> & Hd).
  now rewrite app_nil_r.
Qed.

Lemma Matches_sound_witness :
  Matches Reliable (addr [P_IP6; P_UDP; P_QUIC]) = Ok true /\
  denotes Reliable [P_IP6; P_UDP; P_QUIC].
Proof.
  split; [reflexivity|].
  exact (proj2 (Matches_sound Reliable (addr [P_IP6; P_UDP; P_QUIC]) [])
               eq_refl).
Defined.

(** ** Only the codes of the segments matter *)

Section LoopCodes.
Variable call : Pattern -> list Protocol -> result (bool * list Protocol).

Lemma or_loop_codes (args : list Pattern) :
  Forall (fun a => forall q q', map Code q = map Code q' ->
            result_codes (call a q) = result_codes (call a q')) args ->
  forall pcs pcs', map Code pcs = map Code pcs' ->
    result_codes (or_loop call args pcs) = result_codes (or_loop call args pcs').
Proof.
  induction 1 as [|a args Ha _ IH]; intros pcs pcs' Hc; simpl; [reflexivity|].
  pose proof (Ha _ _ Hc) as E.
  destruct (call a pcs) as [[ok r]|m], (call a pcs') as [[ok' r']|m'];
    simpl in E |- *; try discriminate E; [|exact E].
  injection E as -> Hr. destruct ok'; simpl; [now rewrite Hr | now apply IH].
Qed.

Lemma and_loop_codes (args : list Pattern) :
  Forall (fun a => forall q q', map Code q = map Code q' ->
            result_codes (call a q) = result_codes (call a q')) args ->
  forall pcs pcs', map Code pcs = map Code pcs' ->
    result_codes (and_loop call args pcs) =
    result_codes (and_loop call args pcs').
Proof.
  induction 1 as [|a args Ha _ IH]; intros pcs pcs' Hc; simpl.
  - now rewrite Hc.
  - pose proof (Ha _ _ Hc) as E.
    destruct (call a pcs) as [[ok r]|m], (call a pcs') as [[ok' r']|m'];
      simpl in E |- *; try discriminate E; [|exact E].
    injection E as -> Hr. destruct ok'; simpl; [now apply IH | reflexivity].
Qed.
End LoopCodes.

Lemma partialMatch_codes (p : Pattern) :
  forall pcs pcs', map Code pcs = map Code pcs' ->
    result_codes (partialMatch p pcs) = result_codes (partialMatch p pcs').
Proof.
  induction p as [c|Args Op IH] using Pattern_tree_ind; intros pcs pcs' Hc.
  - simpl. unfold Base_partialMatch.
    destruct pcs as [|x r], pcs' as [|x' r']; simpl in Hc;
      try discriminate Hc; [reflexivity|].
    injection Hc as -> Hr. destruct (Code x' =? c)%Z; simpl; [|reflexivity].
    now rewrite Hr.
  - rewrite !partialMatch_unfold.
    assert (Hlen : List.length pcs = List.length pcs').
    { apply (f_equal (@List.length Z)) in Hc. now rewrite !length_map in Hc. }
    rewrite Hlen.
    destruct (Op =? op_or)%Z; [now apply or_loop_codes|].
    destruct (Op =? op_and)%Z; [|reflexivity].
    destruct (List.length pcs' <? List.length Args)%nat; [reflexivity|].
    now apply and_loop_codes.
Qed.

(** X9: matching reads nothing of a segment but its code: two addresses
    with the same code list get the same full-match result (boolean or
    panic) from every pattern, and the same partial-match result up to the
    codes of the remainder. *)
Theorem Matches_depends_on_codes_only (p : Pattern) (a a' : Multiaddr) :
  map Code a = map Code a' ->
  Matches p a = Matches p a' /\
  result_codes (partialMatch p a) = result_codes (partialMatch p a').
Proof.
  intros Hc. pose proof (partialMatch_codes p a a' Hc) as E.
  split; [|exact E].
  destruct p as [c|Args Op].
  - simpl. unfold Base_Matches, Protocols.
    destruct a as [|x r], a' as [|x' r']; simpl in Hc; try discriminate Hc;
      [reflexivity|].
    injection Hc as -> Hr. simpl.
    apply (f_equal (@List.length Z)) in Hr. rewrite !length_map in Hr.
    now rewrite Hr.
  - rewrite !Matches_pattern.
    destruct (partialMatch (mk_pattern Args Op) a) as [[ok r]|m],
             (partialMatch (mk_pattern Args Op) a') as [[ok' r']|m'];
      simpl in E; try discriminate E; [|congruence].
    injection E as -> Hr.
    apply (f_equal (@List.length Z)) in Hr. rewrite !length_map in Hr.
    now rewrite Hr.
Qed.

Lemma Matches_depends_on_codes_only_witness :
  map Code [mkProtocol "left" P_IP4; mkProtocol "right" P_TCP] =
  map Code (addr [P_IP4; P_TCP]) /\
  Matches TCP [mkProtocol "left" P_IP4; mkProtocol "right" P_TCP] =
  Matches TCP (addr [P_IP4; P_TCP]).
Proof.
  split; [reflexivity|].
  exact (proj1 (Matches_depends_on_codes_only
                  TCP [mkProtocol "left" P_IP4; mkProtocol "right" P_TCP]
                  (addr [P_IP4; P_TCP]) eq_refl)).
Defined.

(** ** Patterns without an empty sequence *)

Lemma productive_unfold (Args : list Pattern) (Op : Z) :
  productive (mk_pattern Args Op) =
  ((Op =? op_or)%Z || ((Op =? op_and)%Z && negb (List.length Args =? 0)%nat))
  && forallb productive Args.
Proof. reflexivity. Qed.

Lemma productive_constructible (p : Pattern) :
  productive p = true -> constructible p = true.
Proof.
  induction p as [c|Args Op IH] using Pattern_tree_ind; [reflexivity|].
  rewrite productive_unfold, constructible_unfold.
  intros H. apply andb_true_iff in H as [Hop Hargs].
  apply andb_true_iff. split.
  - destruct (Op =? op_or)%Z; [reflexivity|]. simpl in *.
    now apply andb_true_iff in Hop as [-> _].
  - rewrite forallb_forall in Hargs |- *. rewrite Forall_forall in IH.
    intros a Ha. apply IH; auto.
Qed.

Lemma threads_consume (ps : list Pattern) :
  Forall (fun p => forall pcs rem,
            partialMatch p pcs = Ok (true, rem) ->
            List.length rem < List.length pcs) ps ->
  forall pcs rem,
    threads ps pcs rem -> List.length rem + List.length ps <= List.length pcs.
Proof.
  induction 1 as [|p ps Hp _ IH]; intros pcs rem Ht;
    inversion Ht as [|p' ps' pcs' mid rem' Hpm Hrest]; subst; simpl.
  - lia.
  - specialize (Hp _ _ Hpm). specialize (IH _ _ Hrest). lia.
Qed.

Lemma productive_consumes (p : Pattern) :
  productive p = true ->
  forall pcs rem,
    partialMatch p pcs = Ok (true, rem) -> List.length rem < List.length pcs.
Proof.
  induction p as [c|Args Op IH] using Pattern_tree_ind; intros Hp pcs rem.
  - simpl. unfold Base_partialMatch.
    destruct pcs as [|x rest]; [discriminate|].
    destruct (Code x =? c)%Z; [|discriminate].
    intros [= <-]. simpl. lia.
  - rewrite productive_unfold in Hp.
    apply andb_true_iff in Hp as [Hop Hargs].
    assert (Hall : Forall (fun a => forall q r,
                     partialMatch a q = Ok (true, r) ->
                     List.length r < List.length q) Args).
    { rewrite forallb_forall in Hargs. rewrite Forall_forall in IH |- *.
      intros a Ha. apply IH; auto. }
    rewrite partialMatch_unfold.
    destruct (Op =? op_or)%Z.
    + intros H. apply or_loop_true_iff in H as (l1 & q & l2 & -> & _ & Hq).
      rewrite Forall_forall in Hall. apply (Hall q (in_elt q l1 l2) _ _ Hq).
    + simpl in Hop. apply andb_true_iff in Hop as [-> Hne].
      destruct (List.length pcs <? List.length Args)%nat; [discriminate|].
      intros H. apply and_loop_true_iff in H.
      pose proof (threads_consume Args Hall _ _ H) as Hlen.
      destruct Args as [|a Args]; [discriminate Hne | simpl in Hlen; lia].
Qed.

Lemma and_loop_precheck (ps : list Pattern) (pcs : list Protocol) :
  forallb productive ps = true ->
  partialMatch (And ps) pcs = and_loop partialMatch ps pcs.
Proof.
  intros Hp. rewrite partialMatch_And.
  destruct (List.length pcs <? List.length ps)%nat eqn:Hlt; [|reflexivity].
  apply Nat.ltb_lt in Hlt.
  assert (Hok : Forall (fun a => forall q, exists r, partialMatch a q = Ok r) ps).
  { rewrite forallb_forall in Hp. apply Forall_forall. intros a Ha.
    apply partialMatch_constructible, productive_constructible; auto. }
  assert (Hcons : Forall (fun a => forall q r,
                    partialMatch a q = Ok (true, r) ->
                    List.length r < List.length q) ps).
  { rewrite forallb_forall in Hp. apply Forall_forall. intros a Ha.
    apply productive_consumes; auto. }
  destruct (and_loop_ok partialMatch ps Hok pcs) as [[ok rem] E].
  rewrite E. destruct ok.
  - apply and_loop_true_iff in E.
    pose proof (threads_consume ps Hcons _ _ E). lia.
  - now rewrite (and_loop_false_nil _ _ _ _ E).
Qed.

(** X10: a pattern built from [Base], [Or] and [And] of at least one child
    consumes at least one segment whenever its partial match succeeds: the
    remainder is strictly shorter than the input.  Every pattern of the
    package is of this kind. *)
Theorem productive_partialMatch_consumes (p : Pattern)
        (pcs rem : list Protocol) :
  productive p = true ->
  partialMatch p pcs = Ok (true, rem) ->
  List.length rem < List.length pcs.
Proof. intros Hp. now apply productive_consumes. Qed.

Lemma productive_partialMatch_consumes_witness :
  productive HTTP = true /\
  partialMatch HTTP (addr [P_DNS4; P_HTTP; P_P2P_WEBRTC_DIRECT]) =
  Ok (true, addr [P_P2P_WEBRTC_DIRECT]) /\
  List.length (addr [P_P2P_WEBRTC_DIRECT]) <
  List.length (addr [P_DNS4; P_HTTP; P_P2P_WEBRTC_DIRECT]).
Proof.
  split; [reflexivity | split; [reflexivity|]].
  exact (productive_partialMatch_consumes
           HTTP (addr [P_DNS4; P_HTTP; P_P2P_WEBRTC_DIRECT])
           (addr [P_P2P_WEBRTC_DIRECT]) eq_refl eq_refl).
Defined.

(** X11: when every child of a sequence consumes at least one segment on
    success (children without an empty sequence inside), the length check
    of [case and] never changes the result: the sequence returns what the
    loop over its children returns, on every input.  This holds for every
    sequence of the package. *)
Theorem And_length_check_redundant (ps : list Pattern) (pcs : list Protocol) :
  forallb productive ps = true ->
  partialMatch (And ps) pcs = and_loop partialMatch ps pcs.
Proof. apply and_loop_precheck. Qed.

Lemma And_length_check_redundant_witness :
  forallb productive [Reliable; Base P_IPFS] = true /\
  partialMatch IPFS (addr [P_GARLIC32]) =
  and_loop partialMatch [Reliable; Base P_IPFS] (addr [P_GARLIC32]).
Proof.
  split; [reflexivity|].
  exact (And_length_check_redundant [Reliable; Base P_IPFS]
                                    (addr [P_GARLIC32]) eq_refl).
Defined.

Lemma and_loop_single (q : Pattern) (pcs : list Protocol) :
  and_loop partialMatch [q] pcs = partialMatch q pcs.
Proof.
  cbn [and_loop].
  destruct (partialMatch q pcs) as [[ok rem]|msg] eqn:E; simpl; [|reflexivity].
  destruct ok; simpl; [reflexivity|].
  now rewrite (partialMatch_false_nil _ _ _ E).
Qed.

(** X12: a sequence nested in a sequence can be flattened when no empty
    sequence is involved: if the children [l1], [l2], [l3] are built
    without an empty sequence and [l2] is not empty, replacing the child
    [And l2] by the children [l2] themselves changes neither the partial
    match nor the full match, on any input. *)
Theorem And_flatten (l1 l2 l3 : list Pattern) (a : list Protocol) :
  forallb productive (l1 ++ l2 ++ l3) = true ->
  l2 <> [] ->
  partialMatch (And (l1 ++ And l2 :: l3)) a =
  partialMatch (And (l1 ++ l2 ++ l3)) a /\
  Matches (And (l1 ++ And l2 :: l3)) a = Matches (And (l1 ++ l2 ++ l3)) a.
Proof.
  intros Hp Hne.
  assert (Hp' := Hp). rewrite !forallb_app in Hp'.
  apply andb_true_iff in Hp' as [H1 H23].
  apply andb_true_iff in H23 as [H2 H3].
  assert (HA : productive (And l2) = true).
  { unfold And. rewrite productive_unfold, H2.
    destruct l2; [congruence | reflexivity]. }
  assert (Hnest : forallb productive (l1 ++ And l2 :: l3) = true).
  { rewrite forallb_app. cbn [forallb]. now rewrite H1, HA, H3. }
  assert (E : partialMatch (And (l1 ++ And l2 :: l3)) a =
              partialMatch (And (l1 ++ l2 ++ l3)) a).
  { rewrite (and_loop_precheck _ _ Hnest), (and_loop_precheck _ _ Hp).
    change (l1 ++ And l2 :: l3) with (l1 ++ [And l2] ++ l3).
    rewrite !and_loop_app.
    destruct (and_loop partialMatch l1 a) as [[[|] mid]|msg]; try reflexivity.
    now rewrite !and_loop_app, and_loop_single, (and_loop_precheck _ _ H2). }
  split; [exact E|].
  unfold And in *. now rewrite !Matches_pattern, E.
Qed.

Lemma And_flatten_witness :
  forallb productive ([IP] ++ [Base P_UDP; Base P_QUIC] ++ [Base P_IPFS]) = true /\
  [Base P_UDP; Base P_QUIC] <> [] /\
  Matches (And ([IP] ++ And [Base P_UDP; Base P_QUIC] :: [Base P_IPFS]))
          (addr [P_IP4; P_UDP; P_QUIC; P_IPFS]) =
  Matches (And ([IP] ++ [Base P_UDP; Base P_QUIC] ++ [Base P_IPFS]))
          (addr [P_IP4; P_UDP; P_QUIC; P_IPFS]).
Proof.
  assert (Hne : [Base P_UDP; Base P_QUIC] <> []) by discriminate.
  split; [reflexivity | split; [exact Hne|]].
  exact (proj2 (And_flatten [IP] [Base P_UDP; Base P_QUIC] [Base P_IPFS]
                            (addr [P_IP4; P_UDP; P_QUIC; P_IPFS])
                            eq_refl Hne)).
Defined.

(** ** Alternatives and sequences of atoms *)

Lemma or_loop_atoms (cs : list Z) (pcs rem : list Protocol) :
  or_loop partialMatch (map Base cs) pcs = Ok (true, rem) <->
  exists x, pcs = x :: rem /\ In (Code x) cs.
Proof.
  induction cs as [|c cs IH]; simpl.
  - split; [discriminate | intros (x & _ & [])].
  - unfold Base_partialMatch at 1.
    destruct pcs as [|x rest]; simpl.
    + rewrite IH. split; intros (y & Hy & _); discriminate Hy.
    + destruct (Z.eqb_spec (Code x) c) as [Heq|Hneq]; simpl.
      * split.
        -- intros [= <-]. exists x. auto.
        -- intros (y & [= <- <-] & _). reflexivity.
      * rewrite IH. split; intros (y & Hy & Hin); exists y; split; trivial.
        -- now right.
        -- destruct Hin as [Hc|Hin]; [|exact Hin].
           injection Hy as <- _. congruence.
Qed.

Lemma and_loop_atoms (cs : list Z) :
  forall pcs rem,
    and_loop partialMatch (map Base cs) pcs = Ok (true, rem) <->
    exists consumed, pcs = consumed ++ rem /\ map Code consumed = cs.
Proof.
  induction cs as [|c cs IH]; intros pcs rem; simpl.
  - split.
    + intros [= <-]. now exists [].
    + intros (consumed & -> & Hc). now destruct consumed.
  - unfold Base_partialMatch at 1.
    destruct pcs as [|x rest]; simpl.
    + split; [discriminate|].
      intros (consumed & Hc & Hm). destruct consumed; discriminate.
    + destruct (Z.eqb_spec (Code x) c) as [Heq|Hneq]; simpl.
      * rewrite IH. split.
        -- intros (consumed & -> & Hm). exists (x :: consumed).
           simpl. now rewrite Heq, Hm.
        -- intros (consumed & Hc & Hm).
           destruct consumed as [|y consumed]; [discriminate|].
           simpl in Hc, Hm. injection Hc as <- ->. injection Hm as _ Hm.
           now exists consumed.
      * split; [discriminate|].
        intros (consumed & Hc & Hm).
        destruct consumed as [|y consumed]; [discriminate|].
        simpl in Hc, Hm. injection Hc as <- _. injection Hm as Hm _.
        contradiction.
Qed.

(** X13: an alternative of atoms accepts exactly the one-segment addresses
    whose code is one of the listed codes; its partial match succeeds
    exactly when the first segment has a listed code, and then consumes
    that segment only.  ([IP], [DNS] and [GARLIC] are of this form.) *)
Theorem Or_of_atoms (cs : list Z) (pcs rem : list Protocol) :
  (partialMatch (Or (map Base cs)) pcs = Ok (true, rem) <->
   exists x, pcs = x :: rem /\ In (Code x) cs) /\
  (Matches (Or (map Base cs)) pcs = Ok true <->
   exists x, pcs = [x] /\ In (Code x) cs).
Proof.
  split.
  - rewrite partialMatch_Or. apply or_loop_atoms.
  - rewrite Matches_true_iff, partialMatch_Or. apply or_loop_atoms.
Qed.

(** X14: a sequence of atoms accepts exactly the addresses whose code list
    is the listed codes, in order; its partial match succeeds exactly when
    the listed codes are a prefix of the codes of the input, and then
    consumes that prefix. *)
Theorem And_of_atoms (cs : list Z) (pcs rem : list Protocol) :
  (partialMatch (And (map Base cs)) pcs = Ok (true, rem) <->
   exists consumed, pcs = consumed ++ rem /\ map Code consumed = cs) /\
  (Matches (And (map Base cs)) pcs = Ok true <-> map Code pcs = cs).
Proof.
  assert (H : forall r,
             partialMatch (And (map Base cs)) pcs = Ok (true, r) <->
             exists consumed, pcs = consumed ++ r /\ map Code consumed = cs).
  { intros r. rewrite <- and_loop_atoms. rewrite partialMatch_And.
    destruct (List.length pcs <? List.length (map Base cs))%nat eqn:Hlt;
      [|reflexivity].
    split; [discriminate|]. intros Hl. exfalso.
    apply and_loop_atoms in Hl as (consumed & -> & Hm).
    apply Nat.ltb_lt in Hlt.
    rewrite length_map, length_app, <- Hm, length_map in Hlt. lia. }
  split; [apply H|].
  rewrite Matches_true_iff, H. split.
  - intros (consumed & -> & Hm). now rewrite app_nil_r.
  - intros Hm. exists pcs. now rewrite app_nil_r.
Qed.

(** ** The languages of the package-level patterns *)

Ltac unfold_library :=
  unfold Matches, pattern_Matches, Protocols, code_in, host_codes,
    WebRTCDirect, HTTPS, HTTP, IPFS, Reliable, Unreliable, SAM3, GARLIC,
    GARLIC64, GARLIC32, QUIC, UTP, UDP, TCP, IP, DNS, DNS6, DNS4, And, Or,
    op_and, op_or,
    P_IP4, P_TCP, P_IP6, P_DNS4, P_DNS6, P_DNSADDR, P_UDP,
    P_P2P_WEBRTC_DIRECT, P_UTP, P_IPFS, P_HTTPS, P_GARLIC64, P_GARLIC32,
    P_QUIC, P_HTTP in *.

(** Case analysis on the code tests the goal still contains. *)
Ltac split_codes :=
  unfold_library;
  repeat (cbn;
          match goal with
          | |- context [Z.eqb ?v ?c] =>
              is_var v; destruct (Z.eqb_spec v c) as [->|?]
          end); cbn.

(** Addresses of up to five segments, and the longer ones. *)
Ltac by_address a :=
  destruct a as [|[? ?] [|[? ?] [|[? ?] [|[? ?] [|[? ?] [|? ?]]]]]];
  split_codes.

(** X15: the transport patterns accept exactly the addresses their comments
    describe, and return [false] (no panic) on every other address: [TCP]
    and [UDP] a host segment (dnsaddr, dns4, dns6, ip4 or ip6) followed by
    tcp, resp. udp; [UTP] and [QUIC] a host segment, udp, then utp, resp.
    quic. *)
Theorem transport_languages (a : Multiaddr) :
  Matches TCP a =
  Ok (match map Code a with
      | [x; y] => code_in host_codes x && (y =? P_TCP)%Z
      | _ => false
      end) /\
  Matches UDP a =
  Ok (match map Code a with
      | [x; y] => code_in host_codes x && (y =? P_UDP)%Z
      | _ => false
      end) /\
  Matches UTP a =
  Ok (match map Code a with
      | [x; y; z] => code_in host_codes x && (y =? P_UDP)%Z && (z =? P_UTP)%Z
      | _ => false
      end) /\
  Matches QUIC a =
  Ok (match map Code a with
      | [x; y; z] => code_in host_codes x && (y =? P_UDP)%Z && (z =? P_QUIC)%Z
      | _ => false
      end).
Proof.
  repeat split; by_address a; reflexivity.
Qed.

(** X16: [HTTP] and [HTTPS] accept exactly a host segment followed by http
    (resp. https), with or without tcp in between; [WebRTCDirect] accepts
    exactly such an address followed by p2p-webrtc-direct.  On every other
    address they return [false]. *)
Theorem web_languages (a : Multiaddr) :
  Matches HTTP a =
  Ok (match map Code a with
      | [x; y] => code_in host_codes x && (y =? P_HTTP)%Z
      | [x; y; z] => code_in host_codes x && (y =? P_TCP)%Z && (z =? P_HTTP)%Z
      | _ => false
      end) /\
  Matches HTTPS a =
  Ok (match map Code a with
      | [x; y] => code_in host_codes x && (y =? P_HTTPS)%Z
      | [x; y; z] => code_in host_codes x && (y =? P_TCP)%Z && (z =? P_HTTPS)%Z
      | _ => false
      end) /\
  Matches WebRTCDirect a =
  Ok (match map Code a with
      | [x; y; w] =>
          code_in host_codes x && code_in [P_HTTP; P_HTTPS] y &&
          (w =? P_P2P_WEBRTC_DIRECT)%Z
      | [x; y; z; w] =>
          code_in host_codes x && (y =? P_TCP)%Z &&
          code_in [P_HTTP; P_HTTPS] z && (w =? P_P2P_WEBRTC_DIRECT)%Z
      | _ => false
      end).
Proof.
  repeat split; by_address a; reflexivity.
Qed.

(** X17: [Reliable] accepts exactly: a garlic64 or garlic32 segment alone;
    a host segment followed by tcp; a host segment followed by udp and
    then utp or quic.  [IPFS] accepts exactly such an address followed by
    the ipfs segment, and [SAM3] exactly a host segment, tcp or udp, and
    the sam3 segment (whatever the code of sam3 is). *)
Theorem reliable_languages (a : Multiaddr) (P_SAM3 : Z) :
  Matches Reliable a =
  Ok (match map Code a with
      | [g] => code_in [P_GARLIC64; P_GARLIC32] g
      | [x; y] => code_in host_codes x && (y =? P_TCP)%Z
      | [x; y; z] =>
          code_in host_codes x && (y =? P_UDP)%Z && code_in [P_UTP; P_QUIC] z
      | _ => false
      end) /\
  Matches IPFS a =
  Ok (match map Code a with
      | [g; i] => code_in [P_GARLIC64; P_GARLIC32] g && (i =? P_IPFS)%Z
      | [x; y; i] => code_in host_codes x && (y =? P_TCP)%Z && (i =? P_IPFS)%Z
      | [x; y; z; i] =>
          code_in host_codes x && (y =? P_UDP)%Z &&
          code_in [P_UTP; P_QUIC] z && (i =? P_IPFS)%Z
      | _ => false
      end) /\
  Matches (SAM3 P_SAM3) a =
  Ok (match map Code a with
      | [x; y; s] =>
          code_in host_codes x && code_in [P_TCP; P_UDP] y && (s =? P_SAM3)%Z
      | _ => false
      end).
Proof.
  repeat split; by_address a; reflexivity.
Qed.

Lemma Or_Matches_child (ps : list Pattern) (a : Multiaddr) :
  Matches (Or ps) a = Ok true ->
  exists p, In p ps /\ Matches p a = Ok true.
Proof.
  rewrite Matches_true_iff, partialMatch_Or, or_loop_true_iff.
  intros (l1 & p & l2 & -> & _ & Hp).
  exists p. split; [apply in_elt | now apply Matches_true_iff].
Qed.

Lemma unshadowed_intro (ps : list Pattern) :
  (forall p, In p ps ->
     forall a, Matches p a = Ok true -> Matches (Or ps) a = Ok true) ->
  unshadowed ps.
Proof.
  intros H a. split; [apply Or_Matches_child|].
  intros (p & Hin & Hp). eauto.
Qed.

Ltac prove_unshadowed :=
  apply unshadowed_intro;
  let p := fresh "p" in
  let Hin := fresh "Hin" in
  let a := fresh "a" in
  intros p Hin a; cbn [In] in Hin;
  repeat (destruct Hin as [<-|Hin]); [..|contradiction];
  by_address a;
  (let H := fresh "H" in intros H; first [reflexivity | discriminate H]).

(** X18: no alternative of the package is shadowed: [DNS], [IP], [TCP],
    [UDP], [GARLIC], [Unreliable], [Reliable], [HTTP], [HTTPS],
    [WebRTCDirect] and the alternative inside [SAM3] accept an address
    exactly when one of their listed children accepts it, although the
    first-success rule does not give this in general. *)
Theorem library_alternatives_unshadowed :
  unshadowed [Base P_DNSADDR; DNS4; DNS6] /\
  unshadowed [Base P_IP4; Base P_IP6] /\
  unshadowed [And [DNS; Base P_TCP]; And [IP; Base P_TCP]] /\
  unshadowed [And [DNS; Base P_UDP]; And [IP; Base P_UDP]] /\
  unshadowed [GARLIC64; GARLIC32] /\
  unshadowed [UDP] /\
  unshadowed [TCP; UDP] /\
  unshadowed [TCP; UTP; QUIC; GARLIC] /\
  unshadowed [And [TCP; Base P_HTTP]; And [IP; Base P_HTTP];
              And [DNS; Base P_HTTP]] /\
  unshadowed [And [TCP; Base P_HTTPS]; And [IP; Base P_HTTPS];
              And [DNS; Base P_HTTPS]] /\
  unshadowed [And [HTTP; Base P_P2P_WEBRTC_DIRECT];
              And [HTTPS; Base P_P2P_WEBRTC_DIRECT]].
Proof.
  repeat apply conj; prove_unshadowed.
Qed.

(** ** A sufficient condition against shadowing *)

(** X19: when all children of an alternative consume the same number [n]
    of segments whenever they succeed (and are built with [Base], [And]
    and [Or]), no child is shadowed: the alternative accepts an address
    exactly when one of its children accepts it. *)
Theorem uniform_width_unshadowed (ps : list Pattern) (n : nat) :
  forallb constructible ps = true ->
  (forall p pcs rem,
     In p ps -> partialMatch p pcs = Ok (true, rem) ->
     List.length pcs = n + List.length rem) ->
  unshadowed ps.
Proof.
  intros Hc Hw. apply unshadowed_intro. intros p Hin a Hp.
  apply Matches_true_iff in Hp. apply Matches_true_iff.
  rewrite partialMatch_Or.
  assert (Hok : Forall (fun q => forall pcs, exists r, partialMatch q pcs = Ok r)
                       ps).
  { rewrite forallb_forall in Hc. apply Forall_forall. intros q Hq.
    apply partialMatch_constructible; auto. }
  destruct (or_loop_ok partialMatch ps Hok a) as [[ok rem] E].
  rewrite E. destruct ok.
  - apply or_loop_true_iff in E as (l1 & q & l2 & -> & _ & Hq).
    pose proof (Hw _ _ _ (in_elt q l1 l2) Hq) as Lq.
    pose proof (Hw _ _ _ Hin Hp) as Lp. simpl in Lp.
    destruct rem; [reflexivity | simpl in Lq; lia].
  - rewrite (or_loop_false_nil _ _ _ _ E) in E.
    apply or_loop_false_iff in E. rewrite Forall_forall in E.
    specialize (E p Hin). unfold fails_on in E. congruence.
Qed.

Lemma uniform_width_unshadowed_witness :
  forallb constructible [Base P_IP4; Base P_IP6] = true /\
  unshadowed [Base P_IP4; Base P_IP6].
Proof.
  split; [reflexivity|].
  apply (uniform_width_unshadowed [Base P_IP4; Base P_IP6] 1 eq_refl).
  intros p pcs rem Hin Hp.
  destruct (partialMatch_suffix p pcs (true, rem) Hp) as [consumed Hs].
  simpl in Hin, Hs. subst pcs.
  assert (Hb : exists c, p = Base c)
    by (destruct Hin as [<-|[<-|[]]]; eauto).
  destruct Hb as [c ->]. simpl in Hp. unfold Base_partialMatch in Hp.
  destruct consumed as [|x [|y consumed]]; simpl in Hp |- *.
  - destruct rem as [|z rem]; [discriminate|].
    destruct (Code z =? c)%Z; [|discriminate].
    injection Hp as Hp. apply (f_equal (@List.length Protocol)) in Hp.
    simpl in Hp. lia.
  - reflexivity.
  - destruct (Code x =? c)%Z; [|discriminate].
    injection Hp as Hp. apply (f_equal (@List.length Protocol)) in Hp.
    simpl in Hp. rewrite length_app in Hp. lia.
Defined.

(** ** What the rendering does not show *)

Lemma concat_cons_ne (sep x : string) (xs : list string) :
  xs <> [] ->
  String.concat sep (x :: xs) = (x ++ sep ++ String.concat sep xs)%string.
Proof. destruct xs; [congruence | reflexivity]. Qed.

Lemma concat_app_ne (sep : string) (l1 l2 : list string) :
  l1 <> [] -> l2 <> [] ->
  String.concat sep (l1 ++ l2) =
  (String.concat sep l1 ++ sep ++ String.concat sep l2)%string.
Proof.
  intros H1 H2. induction l1 as [|x l1 IH]; [congruence|].
  destruct l1 as [|y l1].
  - simpl app. now rewrite concat_cons_ne.
  - change ((x :: y :: l1) ++ l2) with (x :: ((y :: l1) ++ l2)).
    rewrite concat_cons_ne by discriminate.
    rewrite IH by discriminate.
    rewrite (concat_cons_ne sep x (y :: l1)) by discriminate.
    now rewrite !string_app_assoc.
Qed.

Lemma concat_flatten (sep : string) (l1 l2 l3 : list string) :
  l2 <> [] ->
  String.concat sep (l1 ++ String.concat sep l2 :: l3) =
  String.concat sep (l1 ++ l2 ++ l3).
Proof.
  intros H2.
  assert (E : String.concat sep (String.concat sep l2 :: l3) =
              String.concat sep (l2 ++ l3)).
  { destruct l3 as [|z l3]; [now rewrite app_nil_r|].
    rewrite concat_cons_ne by discriminate.
    now rewrite concat_app_ne by (trivial; discriminate). }
  destruct l1 as [|x l1]; [exact E|].
  rewrite !(concat_app_ne sep (x :: l1)); try discriminate.
  - now rewrite E.
  - destruct l2; [congruence | discriminate].
Qed.

(** X20: [String] does not show how sequences are nested: when [l2] is not
    empty, the sequence with the child [And l2] and the sequence with the
    children [l2] in its place render to the same text (for children built
    with [Base], [And] and [Or]). *)
Theorem toString_And_flatten (registry : Z -> Protocol)
        (l1 l2 l3 : list Pattern) :
  forallb constructible (l1 ++ l2 ++ l3) = true ->
  l2 <> [] ->
  toString registry (And (l1 ++ And l2 :: l3)) =
  toString registry (And (l1 ++ l2 ++ l3)).
Proof.
  intros Hc Hne.
  assert (Hc' := Hc). rewrite !forallb_app in Hc'.
  apply andb_true_iff in Hc' as [H1 H23].
  apply andb_true_iff in H23 as [H2 H3].
  assert (Hnest : constructible (And (l1 ++ And l2 :: l3)) = true).
  { unfold And. rewrite constructible_unfold, forallb_app.
    cbn [forallb]. rewrite constructible_unfold. now rewrite H1, H2, H3. }
  assert (Hflat : constructible (And (l1 ++ l2 ++ l3)) = true).
  { unfold And. rewrite constructible_unfold. now rewrite Hc. }
  rewrite (toString_render _ _ Hnest), (toString_render _ _ Hflat).
  f_equal. unfold And. cbn [render_spec]. cbn [Z.eqb op_and op_or].
  rewrite !map_app. cbn [map render_spec]. cbn [Z.eqb op_and op_or].
  apply concat_flatten. destruct l2; [congruence | discriminate].
Qed.

Lemma toString_And_flatten_witness :
  forallb constructible ([IP] ++ [Base P_UDP; Base P_QUIC] ++ []) = true /\
  [Base P_UDP; Base P_QUIC] <> [] /\
  toString sample_registry (And ([IP] ++ And [Base P_UDP; Base P_QUIC] :: [])) =
  Ok "{ip4|ip6}/udp/quic".
Proof.
  assert (Hne : [Base P_UDP; Base P_QUIC] <> []) by discriminate.
  split; [reflexivity | split; [exact Hne|]].
  rewrite (toString_And_flatten sample_registry [IP]
             [Base P_UDP; Base P_QUIC] [] eq_refl Hne).
  reflexivity.
Defined.

(** ** The order of the children of an alternative *)

(** X21: swapping the two children of an alternative changes nothing on an
    input where one of them fails; the order matters only where both could
    succeed, and there it does matter: [{ip4|ip4/tcp}] rejects the address
    [ip4, tcp] that [{ip4/tcp|ip4}] accepts. *)
Theorem Or_order (p q : Pattern) (a : list Protocol) :
  (fails_on a p \/ fails_on a q ->
   partialMatch (Or [p; q]) a = partialMatch (Or [q; p]) a) /\
  Matches (Or [shadow_P1; shadow_P2]) shadow_addr = Ok false /\
  Matches (Or [shadow_P2; shadow_P1]) shadow_addr = Ok true.
Proof.
  split; [|split; reflexivity].
  assert (H : forall p1 p2, fails_on a p1 ->
              partialMatch (Or [p1; p2]) a = partialMatch p2 a /\
              partialMatch (Or [p2; p1]) a = partialMatch p2 a).
  { intros p1 p2 Hf. unfold fails_on in Hf. rewrite !partialMatch_Or.
    cbn [or_loop]. rewrite Hf. simpl. split; [apply partialMatch_normal|].
    destruct (partialMatch p2 a) as [[ok rem]|msg] eqn:E; simpl; [|reflexivity].
    destruct ok; [reflexivity|].
    now rewrite (partialMatch_false_nil _ _ _ E). }
  intros [Hp|Hq].
  - destruct (H p q Hp) as [E1 E2]. now rewrite E1, E2.
  - destruct (H q p Hq) as [E1 E2]. now rewrite E1, E2.
Qed.

Lemma Or_order_witness :
  fails_on (addr [P_IP6; P_UDP]) TCP /\
  partialMatch (Or [TCP; UDP]) (addr [P_IP6; P_UDP]) =
  partialMatch (Or [UDP; TCP]) (addr [P_IP6; P_UDP]).
Proof.
  assert (H : fails_on (addr [P_IP6; P_UDP]) TCP) by reflexivity.
  split; [exact H|].
  exact (proj1 (Or_order TCP UDP (addr [P_IP6; P_UDP])) (or_introl H)).
Defined.
